(** * miniStore: a keyed store with change subscriptions (src/Store.ts)

    The class [Store<T>] keeps three private fields: the live record
    [_store], the array [_listeners] of [{key, cb}] registrations and the
    default snapshot [_default].  Records are JavaScript objects, so they are
    shared by reference: [getAll] hands out the live record itself and every
    write goes through the deep-copy helper [clone].  The embedding therefore
    keeps an explicit heap of records and passes references around.

    Modelling boundaries, all of them documented where they apply:
    - numbers are the integers a double holds exactly and prints in full
      (magnitude below 2^53); floating point, [NaN] and symbols are left out;
    - a record is the list of its own properties in creation order, all of
      them enumerable, writable and configurable; [Object.keys] enumerates
      them as [OrdinaryOwnPropertyKeys] does (array indices first, ascending);
    - every record has the prototype [Object.prototype]: a read of a name the
      record does not own finds the property of [Object.prototype], and an
      assignment to the inherited accessor [__proto__] does not create a
      property.  Replacing the prototype of a record (assigning an object or
      [null] to that accessor) is outside the model: the statements that
      depend on what such a write stores leave the name [__proto__] out;
    - the function values are the eleven functions of [Object.prototype];
      stored data is otherwise structural: primitives and nested records;
    - listener callbacks are observers: an invocation is recorded in the call
      log of the world and has no other effect (no re-entrant use of the store);
    - updater callbacks passed to [set] are arbitrary total functions on the
      heap: they may allocate and mutate records, but not the store fields. *)

From Stdlib Require Import ZArith NArith Lia.
From stdpp Require Import base option list strings pretty sorting.

Local Open Scope string_scope.
Local Open Scope list_scope.
Local Open Scope nat_scope.

(** ** Values and the heap *)

Definition loc := nat.

Inductive prim :=
| PUndef
| PNull
| PBool (b : bool)
| PNum (z : Z)
| PStr (s : string).

(** The objects every record reaches through its prototype: the eleven
    functions that are properties of [Object.prototype], and
    [Object.prototype] itself, which the accessor [__proto__] returns. *)
Inductive builtin :=
| proto_constructor
| proto_defineGetter
| proto_defineSetter
| proto_hasOwnProperty
| proto_lookupGetter
| proto_lookupSetter
| proto_isPrototypeOf
| proto_propertyIsEnumerable
| proto_toString
| proto_valueOf
| proto_toLocaleString
| Object_prototype.

Inductive value :=
| VPrim (p : prim)
| VRef (l : loc)
| VBuiltin (b : builtin).

Abbreviation VUndef := (VPrim PUndef).
Abbreviation VNull := (VPrim PNull).
Abbreviation VBool b := (VPrim (PBool b)).
Abbreviation VNum z := (VPrim (PNum z)).
Abbreviation VStr s := (VPrim (PStr s)).

#[global] Instance prim_eq_dec : EqDecision prim.
Proof. solve_decision. Defined.

#[global] Instance builtin_eq_dec : EqDecision builtin.
Proof. solve_decision. Defined.

#[global] Instance value_eq_dec : EqDecision value.
Proof. solve_decision. Defined.

(** A record: its own properties in creation order. *)
Abbreviation obj := (list (string * value)).
Abbreviation heap := (list obj).

(** The own property [k] of a record, [undefined] when it has none. *)
Fixpoint prop_get (o : obj) (k : string) : value :=
  match o with
  | [] => VUndef
  | (k', v) :: o' => if decide (k' = k) then v else prop_get o' k
  end.

(** [o[k] = v] on own properties: overwrite in place, or create the property
    after the existing ones. *)
Fixpoint prop_set (o : obj) (k : string) (v : value) : obj :=
  match o with
  | [] => [(k, v)]
  | (k', v') :: o' =>
      if decide (k' = k) then (k', v) :: o' else (k', v') :: prop_set o' k v
  end.

(** [delete o[k]]: the property is removed when it is there. *)
Fixpoint prop_delete (o : obj) (k : string) : obj :=
  match o with
  | [] => []
  | (k', v') :: o' =>
      if decide (k' = k) then prop_delete o' k else (k', v') :: prop_delete o' k
  end.

(** [o.hasOwnProperty(k)]. *)
Definition has_prop (o : obj) (k : string) : bool :=
  bool_decide (k ∈ o.*1).

(** The properties of [Object.prototype], by name. *)
Definition Object_prototype_props : list (string * builtin) :=
  [("constructor", proto_constructor);
   ("__defineGetter__", proto_defineGetter);
   ("__defineSetter__", proto_defineSetter);
   ("hasOwnProperty", proto_hasOwnProperty);
   ("__lookupGetter__", proto_lookupGetter);
   ("__lookupSetter__", proto_lookupSetter);
   ("isPrototypeOf", proto_isPrototypeOf);
   ("propertyIsEnumerable", proto_propertyIsEnumerable);
   ("toString", proto_toString);
   ("valueOf", proto_valueOf);
   ("__proto__", Object_prototype);
   ("toLocaleString", proto_toLocaleString)].

(** Lookup in an association list. *)
Fixpoint assoc {A} (m : list (string * A)) (k : string) : option A :=
  match m with
  | [] => None
  | (k', a) :: m' => if decide (k' = k) then Some a else assoc m' k
  end.

(** What a record without an own property [k] reads for [k]: the property
    of [Object.prototype], or [undefined]. *)
Definition inherited (k : string) : value :=
  match assoc Object_prototype_props k with
  | Some b => VBuiltin b
  | None => VUndef
  end.

(** [o[k]] as an expression: the own property, or else the inherited one. *)
Definition proto_get (o : obj) (k : string) : value :=
  if has_prop o k then prop_get o k else inherited k.

(** [o[k] = v] as a statement.  An own property is overwritten; a new name
    becomes an own property, except [__proto__]: without an own property of
    that name the assignment goes to the accessor of [Object.prototype],
    which creates nothing.  The accessor ignores a primitive other than
    [null]; given an object or [null] it replaces the prototype of the
    record, and that effect is not modelled. *)
Definition write (o : obj) (k : string) (v : value) : obj :=
  if bool_decide (k = "__proto__") && negb (has_prop o k) then o
  else prop_set o k v.

(** The array index a property name denotes: the canonical decimal form of
    an integer below [2^32 - 1]. *)
Definition digit_of (c : Ascii.ascii) : option N :=
  let n := Ascii.N_of_ascii c in
  if ((48 <=? n) && (n <=? 57))%N then Some (n - 48)%N else None.

Fixpoint parse_digits (acc : N) (s : string) : option N :=
  match s with
  | EmptyString => Some acc
  | String c s' => d ← digit_of c; parse_digits (10 * acc + d)%N s'
  end.

Definition array_index (s : string) : option N :=
  match s with
  | EmptyString => None
  | _ =>
      n ← parse_digits 0%N s;
      if bool_decide (pretty n = s) && (n <? 4294967295)%N then Some n else None
  end.

(** [OrdinaryOwnPropertyKeys] on names given in creation order: the array
    indices in ascending order, then the other names in creation order. *)
Definition keys_order (ks : list string) : list string :=
  (pretty <$> merge_sort N.le (omap array_index ks))
    ++ filter (fun k => array_index k = None) ks.

(** [Object.keys(o)]. *)
Definition Object_keys (o : obj) : list string := keys_order o.*1.

(** [{...a, ...b}]: the properties of [b] are defined over a copy of [a]. *)
Definition spread_over (a b : obj) : obj :=
  foldl (fun acc kv => prop_set acc kv.1 kv.2) a b.

(** [v1 !== v2]: primitives by value, objects by reference. *)
Definition strict_neq (v1 v2 : value) : bool := negb (bool_decide (v1 = v2)).

(** The name of a built-in function. *)
Definition builtin_name (b : builtin) : string :=
  match b with
  | proto_constructor => "Object"
  | proto_defineGetter => "__defineGetter__"
  | proto_defineSetter => "__defineSetter__"
  | proto_hasOwnProperty => "hasOwnProperty"
  | proto_lookupGetter => "__lookupGetter__"
  | proto_lookupSetter => "__lookupSetter__"
  | proto_isPrototypeOf => "isPrototypeOf"
  | proto_propertyIsEnumerable => "propertyIsEnumerable"
  | proto_toString => "toString"
  | proto_valueOf => "valueOf"
  | proto_toLocaleString => "toLocaleString"
  | Object_prototype => "Object.prototype"
  end.

(** ToPropertyKey on the modelled values (a plain record prints as
    [[object Object]], a built-in function as its source text). *)
Definition prop_name (k : value) : string :=
  match k with
  | VUndef => "undefined"
  | VNull => "null"
  | VBool true => "true"
  | VBool false => "false"
  | VNum z => pretty z
  | VStr s => s
  | VRef _ => "[object Object]"
  | VBuiltin Object_prototype => "[object Object]"
  | VBuiltin b => "function " +:+ builtin_name b +:+ "() { [native code] }"
  end.

(** The own enumerable properties an object spread [...v] copies: those of a
    record, the indexed characters of a string, nothing for the other
    primitives. *)
Definition chars_of (s : string) : obj :=
  imap (fun i c => (pretty i, VStr (String c EmptyString))) (String.list_ascii_of_string s).

(** [typeof v === 'function']. *)
Definition is_function (v : value) : bool :=
  match v with
  | VBuiltin Object_prototype => false
  | VBuiltin _ => true
  | _ => false
  end.

(** [b(x)], a plain call: the receiver is [undefined].  [toString] answers
    for the receiver; [isPrototypeOf] answers [false] for an argument that
    is no object before it looks at the receiver; [Object(x)] makes a new
    record from [undefined] and [null], returns an object as it is and wraps
    another primitive (the wrapper is modelled by the record of its own
    enumerable properties).  The other functions convert the receiver to an
    object first, and calling [Object.prototype] itself is an error as
    well: a [TypeError] ([None]). *)
Definition builtin_call (b : builtin) (h : heap) (x : value) : option (value * heap) :=
  match b with
  | proto_toString => Some (VStr "[object Undefined]", h)
  | proto_isPrototypeOf =>
      match x with
      | VPrim _ => Some (VBool false, h)
      | _ => None
      end
  | proto_constructor =>
      match x with
      | VStr s => Some (VRef (List.length h), h ++ [chars_of s])
      | VPrim _ => Some (VRef (List.length h), h ++ [[]])
      | _ => Some (x, h)
      end
  | _ => None
  end.

(** ** Structure of a value: deep equality and footprint *)

(** The structure reachable from a value, with the references erased: two
    values are deep-equal when they read as the same tree.  Only structural
    data (primitives and records) has a tree. *)
Inductive tree :=
| TPrim (p : prim)
| TObj (fs : list (string * tree)).

(** Reads the tree under [v], descending through at most [n] references. *)
Fixpoint scan (n : nat) (h : heap) (v : value) {struct n} : option tree :=
  match v with
  | VPrim p => Some (TPrim p)
  | VBuiltin _ => None
  | VRef l =>
      match n with
      | 0 => None
      | S n' =>
          o ← h !! l;
          fs ← mapM (fun kv => t ← scan n' h kv.2; Some (kv.1, t)) o;
          Some (TObj fs)
      end
  end.

(** No chain of distinct references is longer than the heap. *)
Definition tree_of (h : heap) (v : value) : option tree := scan (List.length h) h v.

(** The locations visited by [scan]. *)
Fixpoint reach (n : nat) (h : heap) (v : value) {struct n} : list loc :=
  match v with
  | VPrim _ => []
  | VBuiltin _ => []
  | VRef l =>
      l :: match n with
           | 0 => []
           | S n' =>
               match h !! l with
               | Some o => flat_map (fun kv => reach n' h kv.2) o
               | None => []
               end
           end
  end.

Definition footprint (h : heap) (v : value) : list loc := reach (List.length h) h v.

(** One property of a record, read as a tree. *)
Definition scan_prop (n : nat) (h : heap) (kv : string * value) : option (string * tree) :=
  t ← scan n h kv.2; Some (kv.1, t).

(** [v] is no reference, or a reference at or above [b]. *)
Definition fresh_val (b : nat) (v : value) : Prop :=
  match v with
  | VRef l => b ≤ l
  | _ => True
  end.

(** The records at or above [b] refer only to records at or above [b]. *)
Definition closed_from (b : nat) (h : heap) : Prop :=
  ∀ l o, b ≤ l -> h !! l = Some o -> Forall (fun kv => fresh_val b kv.2) o.

(** ** The deep-copy collaborator *)

Fixpoint clone_props (f : heap -> value -> option (value * heap))
    (h : heap) (o : obj) : option (obj * heap) :=
  match o with
  | [] => Some ([], h)
  | (k, v) :: o' =>
      match f h v with
      | Some (v', h1) =>
          match clone_props f h1 o' with
          | Some (o'', h2) => Some ((k, v') :: o'', h2)
          | None => None
          end
      | None => None
      end
  end.

Fixpoint clone_fuel (n : nat) (h : heap) (v : value) {struct n}
    : option (value * heap) :=
  match v with
  | VPrim _ => Some (v, h)
  | VBuiltin _ => Some (v, h)
  | VRef l =>
      match n with
      | 0 => None
      | S n' =>
          match h !! l with
          | Some o =>
              match clone_props (clone_fuel n') h o with
              | Some (o', h') => Some (VRef (List.length h'), h' ++ [o'])
              | None => None
              end
          | None => None
          end
      end
  end.

(** Modelled from the spec: [clone] of [./Utils], which is not part of the
    sources.  "Given any value, it must return a structurally equal value
    sharing no mutable references with the input (recursing through nested
    containers)": primitives are returned as they are, a record is copied
    property by property into a newly allocated record.  The spec says
    nothing of functions; a built-in function is returned as it is.  A cyclic
    or dangling input has no copy ([None]). *)
Definition clone_heap (h : heap) (v : value) : option (value * heap) :=
  clone_fuel (List.length h) h v.

(** ** The store object and the world it lives in *)

(** Identity of a listener function ([Function] objects are compared by
    reference). *)
Definition fn := nat.

(** [interface IStoreListener { key; cb }]. *)
Record IStoreListener := { key : value; cb : fn }.

#[global] Instance IStoreListener_eq_dec : EqDecision IStoreListener.
Proof. solve_decision. Defined.

(** The private fields of [Store<T>]; [None] is [null] (after
    [destroy('store')]). *)
Record Store := {
  _store : option loc;
  _listeners : option (list IStoreListener);
  _default : option loc
}.

(** One store instance, the heap of records and the log of listener
    invocations [cb(arg)], oldest first. *)
Record world := {
  mem : heap;
  this : Store;
  calls : list (fn * value)
}.

(** A reference to an object of the world: the store instance (a world
    holds one) or a record of the heap.  The methods ending in [return this]
    return the first. *)
Inductive objref :=
| This
| Rec (l : loc).

(** Methods are state transformers that may throw ([None] is a thrown
    [TypeError], or a deep copy that does not return). *)
Definition M (A : Type) : Type := world -> option (A * world).

Definition ret {A} (a : A) : M A := fun w => Some (a, w).

Definition bind {A B} (m : M A) (k : A -> M B) : M B :=
  fun w => match m w with
           | Some (a, w') => k a w'
           | None => None
           end.

Definition throw {A} : M A := fun _ => None.

Notation "x <~ m ;; k" := (bind m (fun x => k))
  (at level 100, m at next level, right associativity).
Notation "m ;;; k" := (bind m (fun _ => k))
  (at level 100, right associativity).

(** [return this]. *)
Definition return_this : M objref := ret This.

(** [r.m(...)], a chained call of a store method: a [TypeError] when [r]
    is not the store. *)
Definition on {A} (r : objref) (m : M A) : M A :=
  match r with
  | This => m
  | Rec _ => throw
  end.

(** [arr.forEach(f)]. *)
Fixpoint forEach {A} (xs : list A) (f : A -> M unit) : M unit :=
  match xs with
  | [] => ret tt
  | x :: xs' => f x ;;; forEach xs' f
  end.

Definition get_this : M Store := fun w => Some (this w, w).

Definition put_this (s : Store) : M unit :=
  fun w => Some (tt, {| mem := mem w; this := s; calls := calls w |}).

(** [{...}] / [{}]: a new record. *)
Definition alloc (o : obj) : M loc :=
  fun w => Some (List.length (mem w),
                 {| mem := mem w ++ [o]; this := this w; calls := calls w |}).

Definition load (l : loc) : M obj :=
  fun w => match mem w !! l with
           | Some o => Some (o, w)
           | None => None
           end.

Definition store (l : loc) (o : obj) : M unit :=
  fun w => match mem w !! l with
           | Some _ => Some (tt, {| mem := <[l := o]> (mem w); this := this w; calls := calls w |})
           | None => None
           end.

(** [clone(v)]. *)
Definition clone (v : value) : M value :=
  fun w => match clone_heap (mem w) v with
           | Some (v', h') => Some (v', {| mem := h'; this := this w; calls := calls w |})
           | None => None
           end.

(** [cb(arg)] for a listener: the invocation is logged. *)
Definition invoke (f : fn) (arg : value) : M unit :=
  fun w => Some (tt, {| mem := mem w; this := this w; calls := calls w ++ [(f, arg)] |}).

(** [this._store[k]]: a [TypeError] when [_store] is [null]. *)
Definition store_read (k : value) : M value :=
  s <~ get_this ;;
  match _store s with
  | Some l => o <~ load l ;; ret (proto_get o (prop_name k))
  | None => throw
  end.

(** [this._store[k] = v]. *)
Definition store_write (k : value) (v : value) : M unit :=
  s <~ get_this ;;
  match _store s with
  | Some l => o <~ load l ;; store l (write o (prop_name k) v)
  | None => throw
  end.

(** [this._store = ...] and the other two fields. *)
Definition assign_store (l : option loc) : M unit :=
  s <~ get_this ;;
  put_this {| _store := l; _listeners := _listeners s; _default := _default s |}.

Definition assign_listeners (ls : option (list IStoreListener)) : M unit :=
  s <~ get_this ;;
  put_this {| _store := _store s; _listeners := ls; _default := _default s |}.

Definition assign_default (l : option loc) : M unit :=
  s <~ get_this ;;
  put_this {| _store := _store s; _listeners := _listeners s; _default := l |}.

(** A value used where the type says record: a reference, or [null]. *)
Definition as_record (v : value) : option loc :=
  match v with
  | VRef l => Some l
  | _ => None
  end.

(** ** Arguments of [set] and the three run-time type tests *)

(** The first argument of [set]/[get]: an array of keys, or any other value. *)
Inductive arg :=
| AArray (ks : list value)
| AVal (v : value).

(** An updater callback: it runs on the heap and returns a value. *)
Definition jsfun := heap -> value -> value * heap.

(** The second argument of [set]: a value (which may be a built-in
    function), or a function written by the caller. *)
Inductive setter :=
| SValue (v : value)
| SFun (f : jsfun).

Definition Array_isArray (a : arg) : bool :=
  match a with
  | AArray _ => true
  | AVal _ => false
  end.

(** [data instanceof Object]: arrays, records and functions;
    [Object.prototype] has no prototype and is no instance. *)
Definition instanceof_Object (a : arg) : bool :=
  match a with
  | AArray _ => true
  | AVal (VRef _) => true
  | AVal v => is_function v
  end.

(** [value instanceof Function]. *)
Definition isCallBack (s : setter) : bool :=
  match s with
  | SFun _ => true
  | SValue v => is_function v
  end.

(** The value of a second argument that is not a function. *)
Definition literal (s : setter) : value :=
  match s with
  | SValue v => v
  | SFun _ => VUndef
  end.

(** [data instanceof Object && !Array.isArray(data)]. *)
Definition isRecord (a : arg) : bool :=
  instanceof_Object a && negb (Array_isArray a).

(** [typeof key === 'string' || typeof key === 'number' || typeof key === 'symbol']. *)
Definition isRecordKey (a : arg) : bool :=
  match a with
  | AVal (VStr _) => true
  | AVal (VNum _) => true
  | _ => false
  end.

(** ** The methods of [Store<T>] *)

(** [setState(x)] where [setState] is used as a function: a [TypeError]
    when it is not one. *)
Definition call (setState : setter) (x : value) : M value :=
  match setState with
  | SFun f =>
      fun w => let '(r, h') := f (mem w) x in
               Some (r, {| mem := h'; this := this w; calls := calls w |})
  | SValue (VBuiltin b) =>
      fun w => match builtin_call b (mem w) x with
               | Some (r, h') => Some (r, {| mem := h'; this := this w; calls := calls w |})
               | None => None
               end
  | SValue _ => throw
  end.

(** The properties copied by [...v] inside an object literal (a function
    has no enumerable property of its own). *)
Definition spread (v : value) : M obj :=
  match v with
  | VRef l => load l
  | VStr s => ret (chars_of s)
  | _ => ret []
  end.

(** [...this._store] ([...null] copies nothing). *)
Definition spread_store : M obj :=
  s <~ get_this ;;
  match _store s with
  | Some l => load l
  | None => ret []
  end.

Definition _get (k : value) : M value := store_read k.

Definition _addNewListener (newListener : IStoreListener) : M unit :=
  s <~ get_this ;;
  match _listeners s with
  | Some ls => assign_listeners (Some (ls ++ [newListener]))
  | None => throw
  end.

(** [this._listeners.filter((i) => i.key !== key && i.cb !== cb)]. *)
Definition keeps (k : value) (c : fn) (i : IStoreListener) : bool :=
  strict_neq (key i) k && negb (bool_decide (cb i = c)).

Definition _removeListener (k : value) (c : fn) : M unit :=
  s <~ get_this ;;
  match _listeners s with
  | Some ls => assign_listeners (Some (List.filter (keeps k c) ls))
  | None => throw
  end.

(** [keys.includes(v.key)] then [v.cb(this._store[v.key])], in registration
    order. *)
Definition _notifyListeners (keys : list value) : M unit :=
  s <~ get_this ;;
  match _listeners s with
  | Some ls =>
      forEach ls (fun v =>
        if bool_decide (key v ∈ keys)
        then (x <~ store_read (key v) ;; invoke (cb v) x)
        else ret tt)
  | None => throw
  end.

Definition get (keys : arg) : M value :=
  match keys with
  | AArray ks =>
      result <~ alloc [] ;;
      (forEach ks (fun k =>
         v <~ _get k ;;
         o <~ load result ;;
         store result (write o (prop_name k) v))) ;;;
      ret (VRef result)
  | AVal k => _get k
  end.

Definition _set (k : arg) (setState : setter) : M unit :=
  haveToNotify <~
    match k with
    | AArray ks =>
        data <~ get (AArray ks) ;;
        base <~ spread_store ;;
        r <~ call setState data ;;
        ext <~ spread r ;;
        merged <~ alloc (spread_over base ext) ;;
        c <~ clone (VRef merged) ;;
        (assign_store (as_record c)) ;;;
        ret true
    | AVal k1 =>
        if isRecordKey k then
          state <~ store_read k1 ;;
          if isCallBack setState then
            newState <~ call setState state ;;
            c <~ clone newState ;;
            (store_write k1 c) ;;;
            ret (strict_neq newState state)
          else
            c <~ clone (literal setState) ;;
            (store_write k1 c) ;;;
            ret (strict_neq state (literal setState))
        else ret false
    end ;;
  if (haveToNotify : bool)
  then _notifyListeners (match k with AArray ks => ks | AVal k1 => [k1] end)
  else ret tt.

(** In the record branch [data] is a record or a function; a function has
    no enumerable property of its own, so there is nothing to set. *)
Definition set (data : arg) (setState : setter) : M objref :=
  (if Array_isArray data then _set data setState
   else if isRecord data then
     match data with
     | AVal (VRef d) =>
         o <~ load d ;;
         forEach (Object_keys o) (fun k =>
           o' <~ load d ;;
           _set (AVal (VStr k)) (SValue (proto_get o' k)))
     | _ => ret tt
     end
   else if isRecordKey data then _set data setState
   else ret tt) ;;;
  return_this.

(** [set(data)] with the second argument left out. *)
Definition set1 (data : arg) : M objref := set data (SValue VUndef).

(** The result is the bound remover [_removeListener.bind(this, key, cb)]. *)
Definition subscribe (k : value) (c : fn) : M (M unit) :=
  let newListener := {| key := k; cb := c |} in
  (_removeListener k c) ;;;
  (_addNewListener newListener) ;;;
  ret (_removeListener k c).

Definition unsubscribe (k : value) (c : fn) : M objref :=
  (_removeListener k c) ;;; return_this.

Definition clearStore : M objref :=
  (l <~ alloc [] ;; assign_store (Some l)) ;;; return_this.

Definition clearListeners : M objref :=
  (assign_listeners (Some [])) ;;; return_this.

Definition configureDefault (defaultData : loc) : M objref :=
  (c <~ clone (VRef defaultData) ;; assign_default (as_record c)) ;;; return_this.

Definition restoreDefault (defaultData : option loc) : M objref :=
  clearStore ;;;
  match defaultData with
  | Some d => set1 (AVal (VRef d))
  | None =>
      s <~ get_this ;;
      match _default s with
      | Some d => set1 (AVal (VRef d))
      | None => e <~ alloc [] ;; set1 (AVal (VRef e))
      end
  end ;;;
  return_this.

Definition getAll : M (option loc) :=
  s <~ get_this ;; ret (_store s).

Definition setAll (data : loc) : M objref :=
  (c <~ clone (VRef data) ;; assign_store (as_record c)) ;;; return_this.

Inductive destroy_type := record | store_.

(** [delete o[k]] evaluates to [true] both when the property was removed and
    when there was none: it is [false] (an error in strict code) only for a
    property that is not configurable, and a record here has none. *)
Definition destroy (type : destroy_type) (k : value) : M bool :=
  match type with
  | record =>
      s <~ get_this ;;
      match _store s with
      | Some l =>
          o <~ load l ;;
          (store l (prop_delete o (prop_name k))) ;;;
          ret true
      | None => throw
      end
  | store_ =>
      (put_this {| _store := None; _listeners := None; _default := None |}) ;;;
      ret true
  end.

(** [new Store(defaultValues)]: the field initialisers, then the body, with
    its chained call [this.configureDefault(...).restoreDefault()]. *)
Definition constructor (defaultValues : option loc) : M unit :=
  s0 <~ alloc [] ;;
  d0 <~ alloc [] ;;
  (put_this {| _store := Some s0; _listeners := Some []; _default := Some d0 |}) ;;;
  match defaultValues with
  | Some d => r <~ configureDefault d ;; (on r (restoreDefault None)) ;;; ret tt
  | None => ret tt
  end.

(** ** Concrete worlds used in examples *)

Definition empty_world : world :=
  {| mem := [];
     this := {| _store := None; _listeners := None; _default := None |};
     calls := [] |}.

(** The world after [new Store()]. *)
Definition fresh_store : world :=
  {| mem := [[]; []];
     this := {| _store := Some 0; _listeners := Some []; _default := Some 1 |};
     calls := [] |}.

(** Runs a method and keeps the world it leaves. *)
Definition exec {A} (m : M A) (w : world) : option world :=
  match m w with
  | Some (_, w') => Some w'
  | None => None
  end.

(** The registrations after a run, when there is a listener array. *)
Definition listeners_after {A} (m : M A) (w : world) : option (list IStoreListener) :=
  w' ← exec m w; _listeners (this w').

(** The callbacks invoked by a run, in order. *)
Definition invoked {A} (m : M A) (w : world) : option (list fn) :=
  w' ← exec m w; Some (drop (List.length (calls w)) (calls w')).*1.

(** ** What the spec says, where it is compared with the code *)

(** "any existing registration matching both the same key and the same
    callback reference is removed", then the new pair is registered. *)
Definition subscribe_exact_pair (k : value) (c : fn) (ls : list IStoreListener)
    : list IStoreListener :=
  List.filter (fun i => negb (bool_decide (key i = k) && bool_decide (cb i = c))) ls
    ++ [{| key := k; cb := c |}].


(** What a copy function has to do on values readable at depth [n]. *)
Definition copies (n : nat) (f : heap -> value -> option (value * heap)) : Prop :=
  ∀ (h : heap) (v : value) (t : tree),
    scan n h v = Some t ->
    ∃ v' k, f h v = Some (v', h ++ k)
      ∧ scan n (h ++ k) v' = Some t
      ∧ fresh_val (List.length h) v'
      ∧ (∀ p, v = VPrim p -> v' = v ∧ k = [])
      ∧ closed_from (List.length h) (h ++ k).

(** The invocations [_notifyListeners(keys)] makes when the live record is
    [o]: one per registration whose key is among [keys], in registration
    order, each with what the live record reads for its key. *)
Definition notified (keys : list value) (ls : list IStoreListener) (o : obj)
    : list (fn * value) :=
  (fun i => (cb i, proto_get o (prop_name (key i))))
    <$> filter (fun i => key i ∈ keys) ls.

(** The record [get(keys)] builds from the live record [o]. *)
Definition pick (o : obj) (ks : list value) : obj :=
  foldl (fun acc k => write acc (prop_name k) (proto_get o (prop_name k))) [] ks.

(** The new value of a single-key update and the heap it is computed in
    ([None] when the update throws). *)
Definition apply_setter (setState : setter) (h : heap) (old : value)
    : option (value * heap) :=
  match setState with
  | SFun f => Some (f h old)
  | SValue (VBuiltin b) =>
      if is_function (VBuiltin b) then builtin_call b h old else Some (VBuiltin b, h)
  | SValue v => Some (v, h)
  end.

(** The properties [...v] copies, read from a heap. *)
Definition spread_of (h : heap) (v : value) : option obj :=
  match v with
  | VRef l => h !! l
  | VStr s => Some (chars_of s)
  | _ => Some []
  end.

(** A field of a tree ([undefined] when absent). *)
Fixpoint tree_get (fs : list (string * tree)) (k : string) : tree :=
  match fs with
  | [] => TPrim PUndef
  | (k', t) :: fs' => if decide (k' = k) then t else tree_get fs' k
  end.

(** The properties of a record as [Object.keys] lists them. *)
Definition canon (o : obj) : obj :=
  (fun k => (k, prop_get o k)) <$> Object_keys o.

(** The fields of a tree in the order [Object.keys] lists the names. *)
Definition enum_fields (fs : list (string * tree)) : list (string * tree) :=
  (fun k => (k, tree_get fs k)) <$> keys_order fs.*1.

(** The invocations of a record update [set(data)] on a live record that
    has none of the fields of [data] yet, when [o] is the live record it
    leaves: field by field, a value other than the one an empty record reads
    for the name fires the listeners registered on that field with what the
    live record reads for it. *)
Definition record_calls (ls : list IStoreListener) (o : obj) (data : obj)
    : list (fn * value) :=
  flat_map (fun kv =>
    if decide (kv.2 = inherited kv.1) then []
    else (fun i => (cb i, proto_get o kv.1)) <$> filter (fun i => key i = VStr kv.1) ls)
    data.

(** No two registrations share a key and no two share a callback. *)
Definition distinct_listeners (ls : list IStoreListener) : Prop :=
  NoDup (key <$> ls) ∧ NoDup (cb <$> ls).

(** The values for which [set] takes none of its three branches. *)
Definition no_branch (v : value) : bool :=
  match v with
  | VUndef | VNull | VBool _ | VBuiltin Object_prototype => true
  | _ => false
  end.

(** ** Basic facts *)

Example constructor_fresh : constructor None empty_world = Some (tt, fresh_store).
Proof. reflexivity. Qed.

Lemma strict_neq_true (v1 v2 : value) : strict_neq v1 v2 = true <-> v1 ≠ v2.
Proof.
  unfold strict_neq. rewrite negb_true_iff, bool_decide_eq_false. reflexivity.
Qed.

Lemma strict_neq_false (v1 v2 : value) : strict_neq v1 v2 = false <-> v1 = v2.
Proof.
  unfold strict_neq. rewrite negb_false_iff, bool_decide_eq_true. reflexivity.
Qed.

Lemma keeps_spec (k : value) (c : fn) (i : IStoreListener) :
  keeps k c i = true <-> key i ≠ k ∧ cb i ≠ c.
Proof.
  unfold keeps. rewrite andb_true_iff, strict_neq_true, negb_true_iff,
    bool_decide_eq_false. reflexivity.
Qed.

Lemma prop_get_absent (o : obj) (k : string) : k ∉ o.*1 -> prop_get o k = VUndef.
Proof.
  induction o as [|[k' v] o IH]; simpl; [reflexivity|].
  intros Hn. rewrite not_elem_of_cons in Hn. destruct Hn as [Hne Hn].
  rewrite decide_False by congruence. auto.
Qed.

Lemma has_prop_true (o : obj) (k : string) : has_prop o k = true <-> k ∈ o.*1.
Proof. unfold has_prop. apply bool_decide_eq_true. Qed.

Lemma has_prop_absent (o : obj) (k : string) : has_prop o k = false <-> k ∉ o.*1.
Proof. unfold has_prop. apply bool_decide_eq_false. Qed.

Lemma proto_get_own (o : obj) (k : string) : k ∈ o.*1 -> proto_get o k = prop_get o k.
Proof. intros H. unfold proto_get. rewrite (proj2 (has_prop_true o k) H). reflexivity. Qed.

Lemma proto_get_inherited (o : obj) (k : string) :
  k ∉ o.*1 -> proto_get o k = inherited k.
Proof. intros H. unfold proto_get. rewrite (proj2 (has_prop_absent o k) H). reflexivity. Qed.

Lemma prop_delete_keys (o : obj) (k k0 : string) :
  k0 ∈ (prop_delete o k).*1 <-> k0 ∈ o.*1 ∧ k0 ≠ k.
Proof.
  induction o as [|[k' v] o IH]; simpl.
  - rewrite elem_of_nil. tauto.
  - destruct (decide (k' = k)) as [->|Hne].
    + rewrite IH, elem_of_cons. split; [tauto|]. intros [[->|H] Hn]; [congruence | tauto].
    + rewrite fmap_cons, !elem_of_cons, IH. simpl. split; [|tauto].
      intros [->|H]; [split; [left; reflexivity | exact Hne] | tauto].
Qed.

Lemma bind_run {A B} (m : M A) (k : A -> M B) (w w' : world) (a : A) :
  m w = Some (a, w') -> bind m k w = k a w'.
Proof. intros H. unfold bind. rewrite H. reflexivity. Qed.

(** A method that ends in [return this] returns the store. *)
Lemma returns_this {A} (m : M A) (w w' : world) (a : A) :
  m w = Some (a, w') -> (m ;;; return_this) w = Some (This, w').
Proof. intros H. erewrite bind_run; [reflexivity | exact H]. Qed.

Lemma throws_this {A} (m : M A) (w : world) :
  m w = None -> (m ;;; return_this) w = None.
Proof. intros H. unfold bind. rewrite H. reflexivity. Qed.

(** Unfolds the plumbing of the monad. *)
Ltac munfold :=
  unfold unsubscribe, subscribe, _removeListener, _addNewListener, clearStore,
    clearListeners, getAll, assign_store, assign_listeners, assign_default,
    store_read, store_write, spread_store, _get, return_this,
    put_this, get_this, alloc, load, store, invoke, throw, bind, ret.

(** Runs a method symbolically, using the equations at hand. *)
Ltac mrun :=
  munfold;
  repeat (simpl; match goal with
                 | H : ?x = _ |- context [?x] => rewrite H
                 end);
  simpl.

Lemma store_read_run (w : world) (l : loc) (o : obj) (k : value) :
  _store (this w) = Some l ->
  mem w !! l = Some o ->
  store_read k w = Some (proto_get o (prop_name k), w).
Proof. intros Hs Hl. mrun. reflexivity. Qed.

Lemma store_write_run (w : world) (l : loc) (o : obj) (k v : value) :
  _store (this w) = Some l ->
  mem w !! l = Some o ->
  store_write k v w =
    Some (tt, {| mem := <[l := write o (prop_name k) v]> (mem w);
                 this := this w; calls := calls w |}).
Proof. intros Hs Hl. mrun. reflexivity. Qed.

(** ** Registrations *)

Lemma removeListener_run (w : world) (ls : list IStoreListener) (k : value) (c : fn) :
  _listeners (this w) = Some ls ->
  _removeListener k c w =
    Some (tt, {| mem := mem w;
                 this := {| _store := _store (this w);
                            _listeners := Some (List.filter (keeps k c) ls);
                            _default := _default (this w) |};
                 calls := calls w |}).
Proof. intros H. munfold. simpl. rewrite H. reflexivity. Qed.

Lemma subscribe_run (w : world) (ls : list IStoreListener) (k : value) (c : fn) :
  _listeners (this w) = Some ls ->
  exec (subscribe k c) w =
    Some {| mem := mem w;
            this := {| _store := _store (this w);
                       _listeners := Some (List.filter (keeps k c) ls ++ [{| key := k; cb := c |}]);
                       _default := _default (this w) |};
            calls := calls w |}.
Proof. intros H. unfold exec. munfold. simpl. rewrite H. reflexivity. Qed.

Lemma filter_keeps (k : value) (c : fn) (ls : list IStoreListener) :
  List.filter (keeps k c) ls = filter (fun i => key i ≠ k ∧ cb i ≠ c) ls.
Proof.
  induction ls as [|i ls IH]; [reflexivity|].
  rewrite filter_cons. simpl. rewrite IH.
  destruct (keeps k c i) eqn:E.
  - rewrite decide_True by (apply keeps_spec; exact E). reflexivity.
  - rewrite decide_False; [reflexivity|].
    intros H. apply keeps_spec in H. congruence.
Qed.

Lemma removed_iff (k : value) (c : fn) (i : IStoreListener) :
  ¬ (key i ≠ k ∧ cb i ≠ c) <-> key i = k ∨ cb i = c.
Proof.
  split.
  - intros H. destruct (decide (key i = k)) as [|Hk]; [left; assumption|].
    destruct (decide (cb i = c)) as [|Hc]; [right; assumption|].
    exfalso. apply H. split; assumption.
  - intros [H|H] [H1 H2]; congruence.
Qed.

Lemma filter_key_keeps (k : value) (c : fn) (ls : list IStoreListener) :
  filter (fun i => key i = k) (List.filter (keeps k c) ls) = [].
Proof.
  induction ls as [|i ls IH]; [reflexivity|]. simpl.
  destruct (keeps k c i) eqn:E; [|exact IH].
  apply keeps_spec in E. rewrite filter_cons, decide_False by tauto. exact IH.
Qed.

(** C2 (as the code has it): [subscribe(key, cb)] keeps, of the existing
    registrations, those whose key differs from [key] and whose callback
    differs from [cb], and appends the new pair: a registration is removed
    when it has the same key or the same callback.  The heap, the live state
    and the call log are left as they were.  In particular a second callback
    subscribed to the same key replaces the first one. *)
Theorem subscribe_removes_key_or_cb (w : world) (ls : list IStoreListener)
    (k : value) (c : fn) :
  _listeners (this w) = Some ls ->
  (∃ w', exec (subscribe k c) w = Some w'
     ∧ _listeners (this w') =
         Some (filter (fun i => key i ≠ k ∧ cb i ≠ c) ls ++ [{| key := k; cb := c |}])
     ∧ mem w' = mem w ∧ calls w' = calls w ∧ _store (this w') = _store (this w))
  ∧ (∀ i, i ∈ ls ->
       i ∉ filter (fun i => key i ≠ k ∧ cb i ≠ c) ls <-> key i = k ∨ cb i = c)
  ∧ (∀ c2, c2 ≠ c ->
       ∃ ls2, listeners_after (subscribe k c ;;; subscribe k c2) w = Some ls2
         ∧ filter (fun i => key i = k) ls2 = [{| key := k; cb := c2 |}]).
Proof.
  intros H. split; [|split].
  - eexists. split; [apply subscribe_run; exact H|]. simpl.
    rewrite filter_keeps. auto.
  - intros i Hi. rewrite list_elem_of_filter. rewrite <- removed_iff. tauto.
  - intros c2 Hc. eexists. split.
    + unfold listeners_after, exec. munfold. simpl. rewrite H. simpl. reflexivity.
    + rewrite filter_app, filter_key_keeps.
      rewrite filter_cons, decide_True by reflexivity. reflexivity.
Qed.

Lemma subscribe_removes_key_or_cb_witness :
  ∃ ls2, listeners_after (subscribe (VStr "a") 1 ;;; subscribe (VStr "a") 2) fresh_store
           = Some ls2
    ∧ filter (fun i => key i = VStr "a") ls2 = [{| key := VStr "a"; cb := 2 |}].
Proof.
  destruct (subscribe_removes_key_or_cb fresh_store [] (VStr "a") 1) as (_ & _ & H).
  - reflexivity.
  - apply (H 2). lia.
Defined.

(** C2 (as the spec words it) fails: after [subscribe('a', f1)] and
    [subscribe('a', f2)] with two distinct callbacks only [f2] is registered,
    where removal of the exact pair would keep both. *)
Lemma subscribe_exact_pair_fails :
  listeners_after (subscribe (VStr "a") 1 ;;; subscribe (VStr "a") 2) fresh_store
    = Some [{| key := VStr "a"; cb := 2 |}]
  ∧ subscribe_exact_pair (VStr "a") 2 (subscribe_exact_pair (VStr "a") 1 [])
    = [{| key := VStr "a"; cb := 1 |}; {| key := VStr "a"; cb := 2 |}]
  ∧ listeners_after (subscribe (VStr "a") 1 ;;; subscribe (VStr "a") 2) fresh_store
    ≠ Some (subscribe_exact_pair (VStr "a") 2 (subscribe_exact_pair (VStr "a") 1 [])).
Proof. split; [reflexivity|]. split; [reflexivity|]. discriminate. Qed.

(** C4: [unsubscribe(key, cb)] retains a registration only when its key
    differs from [key] and its callback differs from [cb], so every
    registration sharing the key or the callback is removed; after
    subscribing [cb] to [a] and then to [b], unsubscribing [(a, cb)] leaves
    no registration of [cb] at all. *)
Theorem unsubscribe_key_or_cb (w : world) (ls : list IStoreListener)
    (k : value) (c : fn) :
  _listeners (this w) = Some ls ->
  (∃ w', unsubscribe k c w = Some (This, w')
     ∧ _listeners (this w') = Some (filter (fun i => key i ≠ k ∧ cb i ≠ c) ls)
     ∧ mem w' = mem w ∧ calls w' = calls w ∧ _store (this w') = _store (this w))
  ∧ (∀ i, i ∈ ls ->
       i ∉ filter (fun i => key i ≠ k ∧ cb i ≠ c) ls <-> key i = k ∨ cb i = c)
  ∧ (∀ b, ∃ ls3,
       listeners_after (subscribe k c ;;; subscribe b c ;;; unsubscribe k c) w = Some ls3
       ∧ ∀ i, i ∈ ls3 -> cb i ≠ c).
Proof.
  intros H. split; [|split].
  - eexists. split; [eapply returns_this; apply removeListener_run; exact H|]. simpl.
    rewrite filter_keeps. auto.
  - intros i Hi. rewrite list_elem_of_filter. rewrite <- removed_iff. tauto.
  - intros b. eexists. split.
    + unfold listeners_after, exec. munfold. simpl. rewrite H. simpl. reflexivity.
    + intros i. rewrite filter_keeps, list_elem_of_filter. tauto.
Qed.

Lemma unsubscribe_key_or_cb_witness :
  ∃ ls3,
    listeners_after (subscribe (VStr "a") 1 ;;; subscribe (VStr "b") 1 ;;;
                     unsubscribe (VStr "a") 1) fresh_store = Some ls3
    ∧ ∀ i, i ∈ ls3 -> cb i ≠ 1.
Proof.
  destruct (unsubscribe_key_or_cb fresh_store [] (VStr "a") 1) as (_ & _ & H).
  - reflexivity.
  - apply (H (VStr "b")).
Defined.

(** ** [set] on an argument that is no array, record or key *)

Lemma no_branch_spec (v : value) :
  no_branch v = true <->
  Array_isArray (AVal v) = false ∧ isRecord (AVal v) = false
  ∧ isRecordKey (AVal v) = false.
Proof.
  destruct v as [[| |b|z|s]|l|[]]; simpl; split; try tauto; try discriminate;
    intros (_ & H1 & H2); discriminate.
Qed.

(** C10: when the first argument of [set] is neither an array, nor a
    non-array object, nor a string or number key, [set] does nothing and
    returns the store: the world (live state, heap, registrations, call
    log) is as it was before the call, so no listener is invoked, whatever
    the second argument, the live state and the registrations are.  The
    values that pass none of the three tests are [undefined], [null], the
    booleans and [Object.prototype], and no others. *)
Theorem set_other_is_noop (data : arg) (setState : setter) (w : world) :
  Array_isArray data = false ->
  isRecord data = false ->
  isRecordKey data = false ->
  set data setState w = Some (This, w)
  ∧ invoked (set data setState) w = Some []
  ∧ (∃ v, data = AVal v ∧ no_branch v = true)
  ∧ (∀ v, no_branch v = true -> set (AVal v) setState w = Some (This, w))
  ∧ (∀ b, set (AVal (VBool b)) setState w = Some (This, w))
  ∧ set (AVal VUndef) setState w = Some (This, w)
  ∧ set (AVal VNull) setState w = Some (This, w).
Proof.
  intros Ha Hr Hk.
  assert (Hrun : set data setState w = Some (This, w)).
  { unfold set. rewrite Ha, Hr, Hk. reflexivity. }
  split; [exact Hrun|]. split.
  { unfold invoked, exec. rewrite Hrun. simpl. rewrite drop_all. reflexivity. }
  split.
  { destruct data as [ks|v]; [discriminate|]. exists v. split; [reflexivity|].
    apply no_branch_spec. auto. }
  split.
  { intros v Hv. apply no_branch_spec in Hv. destruct Hv as (Ha' & Hr' & Hk').
    unfold set. rewrite Ha', Hr', Hk'. reflexivity. }
  repeat split.
Qed.

Lemma set_other_is_noop_witness :
  let w := {| mem := [[("x", VNum 5)]; [("x", VNum 0)]];
              this := {| _store := Some 0;
                         _listeners := Some [{| key := VStr "x"; cb := 1 |};
                                             {| key := VUndef; cb := 2 |}];
                         _default := Some 1 |};
              calls := [(1, VNum 5)] |} in
  set (AVal VUndef) (SValue (VNum 1)) w = Some (This, w)
  ∧ invoked (set (AVal VUndef) (SValue (VNum 1))) w = Some [].
Proof.
  intros w.
  destruct (set_other_is_noop (AVal VUndef) (SValue (VNum 1)) w)
    as (H1 & H2 & _); try reflexivity.
  split; assumption.
Defined.

(** ** [destroy('record', key)] *)




(** After [destroy('record', 'toString')] the key reads as the function
    every record inherits, not as [undefined]. *)
Example destroy_record_inherited_run :
  (w' ← exec (destroy record (VStr "toString")) fresh_store;
   fst <$> get (AVal (VStr "toString")) w') = Some (VBuiltin proto_toString).
Proof. reflexivity. Qed.


(** ** Reading trees from the heap *)

Lemma mapM_Some_impl {A B} (f g : A -> option B) (l : list A) (k : list B) :
  mapM f l = Some k ->
  (∀ x y, x ∈ l -> f x = Some y -> g x = Some y) ->
  mapM g l = Some k.
Proof.
  rewrite !mapM_Some. intros H. induction H as [|x y l k Hxy _ IH]; intros Hfg.
  - constructor.
  - constructor.
    + apply Hfg; [left | exact Hxy].
    + apply IH. intros x' y' Hin. apply Hfg. right. exact Hin.
Qed.

Lemma scan_prim (n : nat) (h : heap) (p : prim) : scan n h (VPrim p) = Some (TPrim p).
Proof. destruct n; reflexivity. Qed.

Lemma scan_ref (n : nat) (h : heap) (l : loc) :
  scan (S n) h (VRef l) = o ← h !! l; fs ← mapM (scan_prop n h) o; Some (TObj fs).
Proof. reflexivity. Qed.

Lemma reach_ref (n : nat) (h : heap) (l : loc) (o : obj) :
  h !! l = Some o ->
  reach (S n) h (VRef l) = l :: flat_map (fun kv => reach n h kv.2) o.
Proof. intros H. simpl. rewrite H. reflexivity. Qed.

Lemma reach_head (n : nat) (h : heap) (l : loc) : l ∈ reach n h (VRef l).
Proof. destruct n; simpl; left. Qed.

Lemma reach_prop (n : nat) (h : heap) (l l' : loc) (o : obj) (kv : string * value) :
  h !! l = Some o -> kv ∈ o -> l' ∈ reach n h kv.2 -> l' ∈ reach (S n) h (VRef l).
Proof.
  intros Hl Hkv Hl'. rewrite (reach_ref _ _ _ _ Hl). right.
  apply list_elem_of_In, in_flat_map. exists kv.
  split; apply list_elem_of_In; assumption.
Qed.

(** A successful read depends on the visited records only. *)
Lemma scan_frame (n : nat) :
  ∀ (m : nat) (h h' : heap) (v : value) (t : tree),
    scan n h v = Some t ->
    n ≤ m ->
    (∀ l, l ∈ reach n h v -> h' !! l = h !! l) ->
    scan m h' v = Some t.
Proof.
  induction n as [|n IH]; intros m h h' [p|l|b] t Hs Hle Hfr;
    try (simpl in Hs; inversion Hs; subst; apply scan_prim); try discriminate.
  destruct m as [|m]; [lia|].
  rewrite scan_ref in Hs. rewrite scan_ref.
  destruct (h !! l) as [o|] eqn:Hl; [|discriminate]. simpl in Hs.
  rewrite (Hfr l (reach_head _ _ _)), Hl. simpl.
  destruct (mapM (scan_prop n h) o) as [fs|] eqn:Hm; [|discriminate].
  rewrite (mapM_Some_impl _ (scan_prop m h') _ _ Hm); [exact Hs|].
  intros kv y Hin Hy. unfold scan_prop in *.
  destruct (scan n h kv.2) as [t'|] eqn:Ht; [|discriminate].
  rewrite (IH m h h' kv.2 t' Ht); [exact Hy | lia |].
  intros l' Hl'. apply Hfr. eapply reach_prop; eassumption.
Qed.

(** A successful read visits allocated records only. *)
Lemma reach_bound (n : nat) :
  ∀ (h : heap) (v : value) (t : tree) (l : loc),
    scan n h v = Some t -> l ∈ reach n h v -> l < List.length h.
Proof.
  induction n as [|n IH]; intros h [p|l0|b] t l Hs Hin;
    try (simpl in Hin; apply elem_of_nil in Hin; contradiction);
    try discriminate.
  rewrite scan_ref in Hs.
  destruct (h !! l0) as [o|] eqn:Hl; [|discriminate]. simpl in Hs.
  rewrite (reach_ref _ _ _ _ Hl) in Hin.
  apply elem_of_cons in Hin. destruct Hin as [->|Hin].
  - eapply lookup_lt_Some. exact Hl.
  - apply list_elem_of_In, in_flat_map in Hin. destruct Hin as (kv & Hkv & Hin).
    apply list_elem_of_In in Hkv. apply list_elem_of_In in Hin.
    destruct (mapM (scan_prop n h) o) as [fs|] eqn:Hm; [|discriminate].
    assert (Hall : Forall (is_Some ∘ scan_prop n h) o)
      by (apply mapM_is_Some; rewrite Hm; eauto).
    rewrite Forall_forall in Hall. destruct (Hall kv Hkv) as [y Hy].
    simpl in Hy. unfold scan_prop in Hy.
    destruct (scan n h kv.2) as [t'|] eqn:Ht; [|discriminate].
    eapply IH; eassumption.
Qed.

Lemma scan_agree (n m : nat) (h h' : heap) (v : value) (t : tree) :
  scan n h v = Some t ->
  n ≤ m ->
  (∀ l, l < List.length h -> h' !! l = h !! l) ->
  scan m h' v = Some t.
Proof.
  intros Hs Hle Hag. eapply scan_frame; [exact Hs | exact Hle |].
  intros l Hl. apply Hag. eapply reach_bound; eassumption.
Qed.

Lemma scan_app (n m : nat) (h k : heap) (v : value) (t : tree) :
  scan n h v = Some t -> n ≤ m -> scan m (h ++ k) v = Some t.
Proof.
  intros Hs Hle. eapply scan_agree; [exact Hs | exact Hle |].
  intros l Hl. apply lookup_app_l. exact Hl.
Qed.

Lemma tree_of_app (h k : heap) (v : value) (t : tree) :
  tree_of h v = Some t -> tree_of (h ++ k) v = Some t.
Proof.
  unfold tree_of. intros H. eapply scan_app; [exact H|].
  rewrite length_app. lia.
Qed.

Lemma fresh_val_le (b b' : nat) (v : value) : b' ≤ b -> fresh_val b v -> fresh_val b' v.
Proof. destruct v; simpl; [tauto | lia | tauto]. Qed.

Lemma closed_from_app (b : nat) (h k : heap) :
  closed_from b h ->
  b ≤ List.length h ->
  closed_from (List.length h) (h ++ k) ->
  closed_from b (h ++ k).
Proof.
  intros Hb Hle Hk l o Hl Ho.
  destruct (decide (l < List.length h)) as [Hlt|Hge].
  - rewrite lookup_app_l in Ho by exact Hlt. eapply Hb; eassumption.
  - eapply Forall_impl; [eapply (Hk l o); [lia | exact Ho]|].
    intros kv. apply fresh_val_le. exact Hle.
Qed.

Lemma closed_from_length (h : heap) : closed_from (List.length h) h.
Proof.
  intros l o Hl Ho. apply lookup_lt_Some in Ho. lia.
Qed.

(** From a closed region only the region is reached. *)
Lemma reach_closed (b : nat) (h : heap) :
  closed_from b h ->
  ∀ (m : nat) (v : value) (l : loc), fresh_val b v -> l ∈ reach m h v -> b ≤ l.
Proof.
  intros Hc m. induction m as [|m IH]; intros [p|l0|b0] l Hv Hin; simpl in *;
    try (apply elem_of_nil in Hin; contradiction).
  - apply list_elem_of_singleton in Hin. lia.
  - apply elem_of_cons in Hin. destruct Hin as [->|Hin]; [exact Hv|].
    destruct (h !! l0) as [o|] eqn:Hl; [|apply elem_of_nil in Hin; contradiction].
    apply list_elem_of_In, in_flat_map in Hin. destruct Hin as (kv & Hkv & Hin).
    apply list_elem_of_In in Hkv. apply list_elem_of_In in Hin.
    apply (IH kv.2 l); [|exact Hin].
    pose proof (Hc l0 o Hv Hl) as Hall. rewrite Forall_forall in Hall.
    apply Hall. exact Hkv.
Qed.

(** ** The deep copy: structurally equal, newly allocated *)

Lemma clone_props_spec (n : nat) (f : heap -> value -> option (value * heap)) :
  copies n f ->
  ∀ (o : obj) (h : heap) (fs : list (string * tree)),
    mapM (scan_prop n h) o = Some fs ->
    ∃ o' k, clone_props f h o = Some (o', h ++ k)
      ∧ mapM (scan_prop n (h ++ k)) o' = Some fs
      ∧ Forall (fun kv => fresh_val (List.length h) kv.2) o'
      ∧ closed_from (List.length h) (h ++ k).
Proof.
  intros Hf o. induction o as [|[k0 v] o IH]; intros h fs Hm.
  - exists [], []. simpl in *. rewrite app_nil_r.
    repeat split; [exact Hm | constructor | apply closed_from_length].
  - apply mapM_Some in Hm. apply Forall2_cons_inv_l in Hm.
    destruct Hm as (y & fs' & Hy & Hrest & ->).
    unfold scan_prop in Hy. simpl in Hy.
    destruct (scan n h v) as [t|] eqn:Ht; [|discriminate].
    simpl in Hy. inversion Hy; subst y; clear Hy.
    destruct (Hf h v t Ht) as (v' & k1 & Hfv & Hs1 & Hfr1 & _ & Hc1).
    apply mapM_Some in Hrest.
    assert (Hrest1 : mapM (scan_prop n (h ++ k1)) o = Some fs').
    { eapply mapM_Some_impl; [exact Hrest|]. intros kv y _ Hkv.
      unfold scan_prop in *. destruct (scan n h kv.2) as [t'|] eqn:Ht'; [|discriminate].
      rewrite (scan_app n n h k1 _ _ Ht') by lia. exact Hkv. }
    destruct (IH (h ++ k1) fs' Hrest1) as (o' & k2 & Hcl & Hm2 & Hfr2 & Hc2).
    exists ((k0, v') :: o'), (k1 ++ k2). simpl. rewrite Hfv, Hcl.
    rewrite <- !app_assoc in *. split; [reflexivity|].
    assert (Hlen : List.length h ≤ List.length (h ++ k1))
      by (rewrite length_app; lia).
    split; [|split].
    + pose proof (scan_app n n _ k2 _ _ Hs1 (le_n n)) as Hs2.
      rewrite <- app_assoc in Hs2. unfold scan_prop in *. simpl.
      rewrite Hs2. simpl. rewrite Hm2. reflexivity.
    + constructor; [exact Hfr1|].
      eapply Forall_impl; [exact Hfr2|]. intros kv. apply fresh_val_le. exact Hlen.
    + rewrite app_assoc. apply closed_from_app; [exact Hc1 | exact Hlen |].
      rewrite <- app_assoc. exact Hc2.
Qed.

Lemma clone_fuel_copies (n : nat) : copies n (clone_fuel n).
Proof.
  induction n as [|n IH]; intros h [p|l|b] t Hs; try discriminate.
  - exists (VPrim p), []. rewrite app_nil_r. simpl.
    repeat split; [exact Hs | apply closed_from_length].
  - exists (VPrim p), []. rewrite app_nil_r. simpl.
    repeat split; [exact Hs | apply closed_from_length].
  - rewrite scan_ref in Hs.
    destruct (h !! l) as [o|] eqn:Hl; [|discriminate]. simpl in Hs.
    destruct (mapM (scan_prop n h) o) as [fs|] eqn:Hm; [|discriminate].
    simpl in Hs. inversion Hs; subst t; clear Hs.
    destruct (clone_props_spec n _ IH o h fs Hm) as (o' & k & Hcl & Hm' & Hfr & Hc).
    exists (VRef (List.length (h ++ k))), (k ++ [o']).
    simpl. rewrite Hl, Hcl. rewrite <- app_assoc.
    split; [reflexivity|].
    assert (Hlen : List.length h ≤ List.length (h ++ k))
      by (rewrite length_app; lia).
    split; [|split; [|split]].
    + rewrite app_assoc. rewrite list_lookup_middle by reflexivity. simpl.
      erewrite mapM_Some_impl; [reflexivity | exact Hm' |].
      intros kv y _ Hy. unfold scan_prop in *.
      destruct (scan n (h ++ k) kv.2) as [t'|] eqn:Ht'; [|discriminate].
      rewrite (scan_app n n _ [o'] _ _ Ht') by lia. exact Hy.
    + exact Hlen.
    + intros p Hp. discriminate.
    + rewrite app_assoc. intros l' ob Hl' Hob.
      destruct (decide (l' < List.length (h ++ k))) as [Hlt|Hge].
      * rewrite lookup_app_l in Hob by exact Hlt. eapply Hc; eassumption.
      * pose proof (lookup_lt_Some _ _ _ Hob) as Hb.
        rewrite length_app in Hb. simpl in Hb.
        replace l' with (List.length (h ++ k)) in Hob by lia.
        rewrite list_lookup_middle in Hob by reflexivity.
        inversion Hob; subst ob. exact Hfr.
Qed.

Lemma clone_props_mono (f g : heap -> value -> option (value * heap)) :
  (∀ h v r, f h v = Some r -> g h v = Some r) ->
  ∀ o h r, clone_props f h o = Some r -> clone_props g h o = Some r.
Proof.
  intros Hfg o. induction o as [|[k v] o IH]; intros h r H; simpl in *; [exact H|].
  destruct (f h v) as [[v' h1]|] eqn:Hf; [|discriminate].
  rewrite (Hfg _ _ _ Hf).
  destruct (clone_props f h1 o) as [[o'' h2]|] eqn:Hc; [|discriminate].
  rewrite (IH _ _ Hc). exact H.
Qed.

(** More fuel does not change a copy. *)
Lemma clone_fuel_mono (n : nat) :
  ∀ (m : nat) (h : heap) (v : value) (r : value * heap),
    clone_fuel n h v = Some r -> n ≤ m -> clone_fuel m h v = Some r.
Proof.
  induction n as [|n IH]; intros m h [p|l|b] r H Hle;
    try (destruct m; simpl in *; exact H); try discriminate.
  destruct m as [|m]; [lia|]. simpl in *.
  destruct (h !! l) as [o|]; [|discriminate].
  destruct (clone_props (clone_fuel n) h o) as [[o' h']|] eqn:Hc; [|discriminate].
  rewrite (clone_props_mono (clone_fuel n) (clone_fuel m)) with (r := (o', h'));
    [exact H | | exact Hc].
  intros h0 v0 r0 H0. apply (IH m); [exact H0 | lia].
Qed.

Lemma clone_heap_spec (n : nat) (h : heap) (v : value) (t : tree) :
  scan n h v = Some t ->
  n ≤ List.length h ->
  ∃ v' k, clone_heap h v = Some (v', h ++ k)
    ∧ scan n (h ++ k) v' = Some t
    ∧ fresh_val (List.length h) v'
    ∧ (∀ p, v = VPrim p -> v' = v ∧ k = [])
    ∧ closed_from (List.length h) (h ++ k).
Proof.
  intros Hs Hle.
  destruct (clone_fuel_copies n h v t Hs) as (v' & k & Hc & H).
  exists v', k. split; [|exact H].
  unfold clone_heap. eapply clone_fuel_mono; eassumption.
Qed.

Lemma clone_run (n : nat) (w : world) (v : value) (t : tree) :
  scan n (mem w) v = Some t ->
  n ≤ List.length (mem w) ->
  ∃ v' k,
    clone v w = Some (v', {| mem := mem w ++ k; this := this w; calls := calls w |})
    ∧ scan n (mem w ++ k) v' = Some t
    ∧ fresh_val (List.length (mem w)) v'
    ∧ (∀ p, v = VPrim p -> v' = v ∧ k = [])
    ∧ closed_from (List.length (mem w)) (mem w ++ k).
Proof.
  intros Hs Hle.
  destruct (clone_heap_spec n _ v t Hs Hle) as (v' & k & Hc & H).
  exists v', k. split; [|exact H]. unfold clone. rewrite Hc. reflexivity.
Qed.

(** ** Notification *)

Lemma notified_nil (keys : list value) (o : obj) : notified keys [] o = [].
Proof. reflexivity. Qed.

Lemma notified_cons (keys : list value) (i : IStoreListener)
    (ls : list IStoreListener) (o : obj) :
  notified keys (i :: ls) o =
    (if bool_decide (key i ∈ keys)
     then [(cb i, proto_get o (prop_name (key i)))] else [])
    ++ notified keys ls o.
Proof.
  unfold notified. rewrite filter_cons.
  destruct (decide (key i ∈ keys)) as [H|H].
  - rewrite bool_decide_eq_true_2 by exact H. reflexivity.
  - rewrite bool_decide_eq_false_2 by exact H. reflexivity.
Qed.

Lemma notify_loop (keys : list value) (h : heap) (s : Store) (l : loc) (o : obj) :
  _store s = Some l ->
  h !! l = Some o ->
  ∀ (ls : list IStoreListener) (c : list (fn * value)),
    forEach ls (fun v =>
        if bool_decide (key v ∈ keys)
        then (x <~ store_read (key v) ;; invoke (cb v) x)
        else ret tt)
      {| mem := h; this := s; calls := c |}
    = Some (tt, {| mem := h; this := s; calls := c ++ notified keys ls o |}).
Proof.
  intros Hs Hl ls. induction ls as [|i ls IH]; intros c.
  - simpl. rewrite notified_nil, app_nil_r. reflexivity.
  - rewrite notified_cons. simpl. unfold bind at 1.
    destruct (bool_decide (key i ∈ keys)).
    + unfold bind at 1. rewrite (store_read_run _ l o) by assumption.
      unfold invoke. simpl. rewrite IH, <- app_assoc. reflexivity.
    + unfold ret. rewrite IH. reflexivity.
Qed.

Lemma notify_run (keys : list value) (w : world) (ls : list IStoreListener)
    (l : loc) (o : obj) :
  _listeners (this w) = Some ls ->
  _store (this w) = Some l ->
  mem w !! l = Some o ->
  _notifyListeners keys w =
    Some (tt, {| mem := mem w; this := this w; calls := calls w ++ notified keys ls o |}).
Proof.
  intros Hls Hs Hl. unfold _notifyListeners. unfold bind at 1, get_this.
  rewrite Hls. destruct w as [h s c]. simpl in *.
  apply (notify_loop keys h s l o); assumption.
Qed.

Lemma scan_fuel (n m : nat) (h : heap) (v : value) (t : tree) :
  scan n h v = Some t -> n ≤ m -> scan m h v = Some t.
Proof.
  intros Hs Hle. eapply scan_agree; [exact Hs | exact Hle | reflexivity].
Qed.

Lemma scan_tree_of (n : nat) (h : heap) (v : value) (t : tree) :
  scan n h v = Some t -> n ≤ List.length h -> tree_of h v = Some t.
Proof. intros Hs Hle. unfold tree_of. eapply scan_fuel; eassumption. Qed.

Lemma footprint_closed (b : nat) (h : heap) (v : value) (l : loc) :
  closed_from b h -> fresh_val b v -> l ∈ footprint h v -> b ≤ l.
Proof. intros Hc Hv Hl. eapply reach_closed; eassumption. Qed.

Lemma scan_ref_obj (n : nat) (h : heap) (l : loc) (t : tree) :
  scan n h (VRef l) = Some t ->
  ∃ o fs, h !! l = Some o ∧ mapM (scan_prop (pred n) h) o = Some fs ∧ t = TObj fs.
Proof.
  destruct n as [|n]; [discriminate|]. rewrite scan_ref. simpl. intros H.
  destruct (h !! l) as [o|]; [|discriminate]. simpl in H.
  destruct (mapM (scan_prop n h) o) as [fs|] eqn:Hm; [|discriminate].
  inversion H. exists o, fs. repeat split. exact Hm.
Qed.

Lemma scan_obj_ref (n : nat) (h : heap) (v : value) (fs : list (string * tree)) :
  scan n h v = Some (TObj fs) -> ∃ l, v = VRef l.
Proof.
  destruct v as [p|l|b]; [|eauto|].
  - rewrite scan_prim. discriminate.
  - destruct n; discriminate.
Qed.

(** ** [setAll] *)

(** C7: [setAll(data)] makes the live state a deep copy of [data]: the new
    live record reads as the same tree, consists of newly allocated records
    only, and the records that existed before are left as they were.  No
    listener is invoked, whatever is registered: the call log, the
    registrations and the default snapshot are unchanged. *)
Theorem setAll_replaces_silently (w : world) (data : loc) (t : tree) :
  tree_of (mem w) (VRef data) = Some t ->
  ∃ w' s',
    setAll data w = Some (This, w')
    ∧ getAll w' = Some (Some s', w')
    ∧ tree_of (mem w') (VRef s') = Some t
    ∧ (∀ l, l ∈ footprint (mem w') (VRef s') -> List.length (mem w) ≤ l)
    ∧ (∀ l o, mem w !! l = Some o -> mem w' !! l = Some o)
    ∧ calls w' = calls w
    ∧ _listeners (this w') = _listeners (this w)
    ∧ _default (this w') = _default (this w).
Proof.
  intros Ht.
  destruct (clone_run _ w (VRef data) t Ht (le_n _))
    as (v' & k & Hc & Hs & Hfr & _ & Hcl).
  destruct (scan_ref_obj _ _ _ _ Ht) as (o & fs & Ho & _ & ->).
  destruct (scan_obj_ref _ _ _ _ Hs) as [s' ->].
  eexists _, s'. split.
  { unfold setAll. eapply returns_this. erewrite bind_run; [|exact Hc]. reflexivity. }
  simpl.
  split; [reflexivity|].
  split; [eapply scan_tree_of; [exact Hs | rewrite length_app; lia]|].
  split; [intros l Hl; eapply footprint_closed; eassumption|].
  split; [intros l o' Hl; apply lookup_app_l_Some; exact Hl|].
  auto.
Qed.

Lemma setAll_replaces_silently_witness :
  ∃ w' s',
    setAll 1 {| mem := [[("n", VNum 1)]; [("a", VRef 0)]; []];
                this := {| _store := Some 2;
                           _listeners := Some [{| key := VStr "a"; cb := 5 |}];
                           _default := None |};
                calls := [] |} = Some (This, w')
    ∧ getAll w' = Some (Some s', w')
    ∧ tree_of (mem w') (VRef s') = Some (TObj [("a", TObj [("n", TPrim (PNum 1))])])
    ∧ calls w' = [].
Proof.
  destruct (setAll_replaces_silently
    {| mem := [[("n", VNum 1)]; [("a", VRef 0)]; []];
       this := {| _store := Some 2;
                  _listeners := Some [{| key := VStr "a"; cb := 5 |}];
                  _default := None |};
       calls := [] |} 1 (TObj [("a", TObj [("n", TPrim (PNum 1))])]))
    as (w' & s' & H1 & H2 & H3 & _ & _ & H4 & _); [reflexivity|].
  exists w', s'. auto.
Defined.

(** ** Single-key [set] *)

Lemma prop_get_set_eq (o : obj) (k : string) (v : value) :
  prop_get (prop_set o k v) k = v.
Proof.
  induction o as [|[k' v'] o IH]; simpl.
  - rewrite decide_True by reflexivity. reflexivity.
  - destruct (decide (k' = k)) as [->|Hne]; simpl.
    + rewrite decide_True by reflexivity. reflexivity.
    + rewrite decide_False by exact Hne. exact IH.
Qed.

Lemma prop_get_set_ne (o : obj) (k k0 : string) (v : value) :
  k0 ≠ k -> prop_get (prop_set o k v) k0 = prop_get o k0.
Proof.
  intros Hne. induction o as [|[k' v'] o IH]; simpl.
  - rewrite decide_False by congruence. reflexivity.
  - destruct (decide (k' = k)) as [->|Hk]; simpl.
    + rewrite !decide_False by congruence. reflexivity.
    + destruct (decide (k' = k0)); [reflexivity | exact IH].
Qed.

Lemma prop_set_keys (o : obj) (k k0 : string) (v : value) :
  k0 ∈ (prop_set o k v).*1 <-> k0 ∈ o.*1 ∨ k0 = k.
Proof.
  induction o as [|[k' v'] o IH]; simpl.
  - rewrite list_elem_of_singleton, elem_of_nil. tauto.
  - destruct (decide (k' = k)) as [->|Hne].
    + rewrite !fmap_cons, !elem_of_cons. simpl. tauto.
    + rewrite !fmap_cons, !elem_of_cons, IH. simpl. tauto.
Qed.

Lemma write_prop_set (o : obj) (k : string) (v : value) :
  k ≠ "__proto__" -> write o k v = prop_set o k v.
Proof.
  intros H. unfold write. rewrite bool_decide_eq_false_2 by exact H. reflexivity.
Qed.

Lemma proto_get_set_eq (o : obj) (k : string) (v : value) :
  proto_get (prop_set o k v) k = v.
Proof.
  rewrite proto_get_own by (apply prop_set_keys; right; reflexivity).
  apply prop_get_set_eq.
Qed.

(** Except for [__proto__], a name reads as what was last assigned to it. *)
Lemma proto_get_write_eq (o : obj) (k : string) (v : value) :
  k ≠ "__proto__" -> proto_get (write o k v) k = v.
Proof. intros H. rewrite write_prop_set by exact H. apply proto_get_set_eq. Qed.

Lemma proto_get_set_ne (o : obj) (k k0 : string) (v : value) :
  k0 ≠ k -> proto_get (prop_set o k v) k0 = proto_get o k0.
Proof.
  intros Hne. unfold proto_get.
  assert (E : has_prop (prop_set o k v) k0 = has_prop o k0).
  { unfold has_prop. apply bool_decide_ext. rewrite prop_set_keys. tauto. }
  rewrite E, prop_get_set_ne by exact Hne. reflexivity.
Qed.

(** An assignment leaves every other name as it reads. *)
Lemma proto_get_write_ne (o : obj) (k k0 : string) (v : value) :
  k0 ≠ k -> proto_get (write o k v) k0 = proto_get o k0.
Proof.
  intros Hne. unfold write.
  destruct (bool_decide (k = "__proto__") && negb (has_prop o k)); [reflexivity|].
  apply proto_get_set_ne. exact Hne.
Qed.

Lemma notified_single (kv : value) (ls : list IStoreListener) (o : obj) :
  notified [kv] ls o
  = (fun i => (cb i, proto_get o (prop_name kv))) <$> filter (fun i => key i = kv) ls.
Proof.
  induction ls as [|i ls IH]; [reflexivity|].
  rewrite notified_cons, IH, filter_cons.
  destruct (decide (key i = kv)) as [E|E].
  - rewrite bool_decide_eq_true_2 by (rewrite E; left).
    rewrite E. reflexivity.
  - rewrite bool_decide_eq_false_2; [reflexivity|].
    rewrite list_elem_of_singleton. exact E.
Qed.

Lemma call_run (setState : setter) (w : world) (x nv : value) (h1 : heap) :
  isCallBack setState = true ->
  apply_setter setState (mem w) x = Some (nv, h1) ->
  call setState x w = Some (nv, {| mem := h1; this := this w; calls := calls w |}).
Proof.
  destruct setState as [[p|l|b]|f]; simpl; try discriminate.
  - intros -> H. rewrite H. reflexivity.
  - intros _ H. inversion H as [E]. rewrite E. reflexivity.
Qed.

Lemma literal_run (setState : setter) (h : heap) (x nv : value) (h1 : heap) :
  isCallBack setState = false ->
  apply_setter setState h x = Some (nv, h1) ->
  literal setState = nv ∧ h1 = h.
Proof.
  destruct setState as [[p|l|b]|f]; simpl; try discriminate.
  - intros _ H. inversion H. auto.
  - intros _ H. inversion H. auto.
  - intros -> H. inversion H. auto.
Qed.

(** A value that reads as a tree is no function: it is stored as it is. *)
Lemma apply_setter_structural (n : nat) (h h' : heap) (v old : value) (t : tree) :
  scan n h' v = Some t -> apply_setter (SValue v) h old = Some (v, h).
Proof.
  destruct v as [p|l|b]; [reflexivity | reflexivity |]. destruct n; discriminate.
Qed.

Lemma scan_not_builtin (n : nat) (h : heap) (v : value) (t : tree) (b : builtin) :
  scan n h v = Some t -> v ≠ VBuiltin b.
Proof. intros H ->. destruct n; discriminate. Qed.

Lemma inherited_cases (k : string) :
  inherited k = VUndef ∨ ∃ b, inherited k = VBuiltin b.
Proof.
  unfold inherited. destruct (assoc Object_prototype_props k) as [b|]; eauto.
Qed.

(** A value copied above [b] is not affected by a write below [b]. *)
Lemma scan_insert_below (n m b : nat) (h : heap) (l : loc) (o : obj)
    (v : value) (t : tree) :
  scan n h v = Some t ->
  n ≤ m ->
  closed_from b h ->
  fresh_val b v ->
  l < b ->
  scan m (<[l := o]> h) v = Some t.
Proof.
  intros Hs Hle Hc Hv Hl. eapply scan_frame; [exact Hs | exact Hle |].
  intros l' Hl'. apply list_lookup_insert_ne.
  pose proof (reach_closed b h Hc n v l' Hv Hl'). lia.
Qed.

(** The run of [_set(key, setState)] for one key: [nv] is the new value,
    [h1] the heap the updater leaves, [c] the copy that is assigned. *)
Lemma set_key_run (w : world) (l : loc) (o o1 : obj) (ls : list IStoreListener)
    (kv : value) (setState : setter) (nv : value) (h1 : heap) (n : nat) (t : tree) :
  isRecordKey (AVal kv) = true ->
  _store (this w) = Some l ->
  mem w !! l = Some o ->
  _listeners (this w) = Some ls ->
  apply_setter setState (mem w) (proto_get o (prop_name kv)) = Some (nv, h1) ->
  h1 !! l = Some o1 ->
  scan n h1 nv = Some t ->
  n ≤ List.length h1 ->
  ∃ c k,
    _set (AVal kv) setState w =
      Some (tt, {| mem := <[l := write o1 (prop_name kv) c]> (h1 ++ k);
                   this := this w;
                   calls := calls w ++
                     if decide (nv = proto_get o (prop_name kv)) then []
                     else (fun i => (cb i, proto_get (write o1 (prop_name kv) c)
                                             (prop_name kv)))
                            <$> filter (fun i => key i = kv) ls |})
    ∧ scan n (h1 ++ k) c = Some t
    ∧ fresh_val (List.length h1) c
    ∧ (∀ p, nv = VPrim p -> c = nv ∧ k = [])
    ∧ closed_from (List.length h1) (h1 ++ k).
Proof.
  intros Hk Hs Hl Hls Hap Hl1 Ht Hn.
  set (w1 := {| mem := h1; this := this w; calls := calls w |}).
  destruct (clone_run n w1 nv t Ht Hn) as (c & k & Hc & Hsc & Hfr & Hp & Hcl).
  exists c, k. split; [|auto].
  pose proof (lookup_app_l_Some _ k _ _ Hl1) as Hl2.
  unfold _set. rewrite Hk. unfold bind at 1. unfold bind at 1.
  rewrite (store_read_run w l o kv Hs Hl).
  destruct (isCallBack setState) eqn:Hcb.
  - unfold bind at 1. rewrite (call_run _ _ _ _ _ Hcb Hap). fold w1.
    unfold bind at 1. rewrite Hc. unfold bind at 1.
    erewrite store_write_run; [|exact Hs | exact Hl2]. unfold ret.
    unfold strict_neq. destruct (decide (nv = proto_get o (prop_name kv))) as [E|E].
    + rewrite bool_decide_eq_true_2 by exact E. simpl. rewrite app_nil_r. reflexivity.
    + rewrite bool_decide_eq_false_2 by exact E. simpl.
      erewrite notify_run; [| exact Hls | exact Hs |].
      2:{ simpl. apply list_lookup_insert_eq. eapply lookup_lt_Some. exact Hl2. }
      simpl. rewrite notified_single. reflexivity.
  - destruct (literal_run _ _ _ _ _ Hcb Hap) as [-> ->].
    replace w with w1 at 1 by (destruct w; reflexivity).
    unfold bind at 1. rewrite Hc. unfold bind at 1.
    erewrite store_write_run; [|exact Hs | exact Hl2]. unfold ret.
    unfold strict_neq. destruct (decide (nv = proto_get o (prop_name kv))) as [E|E].
    + rewrite bool_decide_eq_true_2 by (symmetry; exact E).
      simpl. rewrite app_nil_r. reflexivity.
    + rewrite bool_decide_eq_false_2 by (intros E'; apply E; symmetry; exact E').
      simpl.
      erewrite notify_run; [| exact Hls | exact Hs |].
      2:{ simpl. apply list_lookup_insert_eq. eapply lookup_lt_Some. exact Hl2. }
      simpl. rewrite notified_single. reflexivity.
Qed.

Lemma set_key_dispatch (kv : value) (setState : setter) :
  isRecordKey (AVal kv) = true ->
  set (AVal kv) setState = (_set (AVal kv) setState ;;; return_this).
Proof.
  destruct kv as [[| |b|z|s]|l|b]; simpl; try discriminate; reflexivity.
Qed.




(** ** Mass update *)

Lemma insert_last (h : heap) (a b : obj) :
  <[List.length h := b]> (h ++ [a]) = h ++ [b].
Proof.
  rewrite insert_app_r_alt by lia. rewrite Nat.sub_diag. reflexivity.
Qed.

Lemma get_loop (h : heap) (s : Store) (l : loc) (o : obj) (c : list (fn * value)) :
  _store s = Some l ->
  h !! l = Some o ->
  ∀ (ks : list value) (acc : obj),
    forEach ks (fun k =>
        v <~ _get k ;;
        o0 <~ load (List.length h) ;;
        store (List.length h) (write o0 (prop_name k) v))
      {| mem := h ++ [acc]; this := s; calls := c |}
    = Some (tt, {| mem := h ++ [foldl (fun acc k =>
                      write acc (prop_name k) (proto_get o (prop_name k))) acc ks];
                   this := s; calls := c |}).
Proof.
  intros Hs Hl ks. induction ks as [|k ks IH]; intros acc; [reflexivity|].
  simpl. erewrite bind_run; [apply IH|].
  erewrite bind_run.
  2:{ apply (store_read_run _ l o); [exact Hs|].
      simpl. apply lookup_app_l_Some. exact Hl. }
  erewrite bind_run.
  2:{ unfold load. simpl. rewrite list_lookup_middle by reflexivity. reflexivity. }
  unfold store. simpl. rewrite list_lookup_middle by reflexivity.
  rewrite insert_last. reflexivity.
Qed.

Lemma get_array_run (w : world) (l : loc) (o : obj) (ks : list value) :
  _store (this w) = Some l ->
  mem w !! l = Some o ->
  get (AArray ks) w =
    Some (VRef (List.length (mem w)),
          {| mem := mem w ++ [pick o ks]; this := this w; calls := calls w |}).
Proof.
  intros Hs Hl. unfold get.
  erewrite bind_run; [|reflexivity].
  erewrite bind_run; [reflexivity|].
  apply (get_loop (mem w) (this w) l o (calls w) Hs Hl ks []).
Qed.

(** The run of [_set(keys, callback)]: [h2] is the heap the callback leaves,
    [ext] the properties of the record it returns, and the merged record is
    allocated at the end of [h2] before it is copied. *)
Lemma set_mass_run (w : world) (l : loc) (o : obj) (ls : list IStoreListener)
    (ks : list value) (f : jsfun) (r : value) (h2 : heap) (ext : obj)
    (n : nat) (t : tree) :
  _store (this w) = Some l ->
  mem w !! l = Some o ->
  _listeners (this w) = Some ls ->
  f (mem w ++ [pick o ks]) (VRef (List.length (mem w))) = (r, h2) ->
  spread_of h2 r = Some ext ->
  scan n (h2 ++ [spread_over o ext]) (VRef (List.length h2)) = Some t ->
  n ≤ S (List.length h2) ->
  ∃ s' k o',
    _set (AArray ks) (SFun f) w =
      Some (tt, {| mem := (h2 ++ [spread_over o ext]) ++ k;
                   this := {| _store := Some s';
                              _listeners := Some ls;
                              _default := _default (this w) |};
                   calls := calls w ++ notified ks ls o' |})
    ∧ ((h2 ++ [spread_over o ext]) ++ k) !! s' = Some o'
    ∧ scan n ((h2 ++ [spread_over o ext]) ++ k) (VRef s') = Some t
    ∧ S (List.length h2) ≤ s'
    ∧ closed_from (S (List.length h2)) ((h2 ++ [spread_over o ext]) ++ k).
Proof.
  intros Hs Hl Hls Hf Hext Ht Hn.
  set (h3 := h2 ++ [spread_over o ext]) in *.
  assert (Hlen3 : List.length h3 = S (List.length h2))
    by (unfold h3; rewrite length_app; simpl; lia).
  set (w3 := {| mem := h3; this := this w; calls := calls w |}).
  destruct (clone_run n w3 (VRef (List.length h2)) t Ht ltac:(simpl; lia))
    as (c & k & Hc & Hsc & Hfr & _ & Hcl).
  destruct (scan_ref_obj _ _ _ _ Ht) as (om & fs & _ & _ & ->).
  destruct (scan_obj_ref _ _ _ _ Hsc) as [s' ->].
  destruct (scan_ref_obj _ _ _ _ Hsc) as (o' & fs' & Ho' & _ & _).
  simpl in Hfr, Hcl. rewrite Hlen3 in Hfr, Hcl.
  exists s', k, o'. split; [|auto].
  unfold _set.
  erewrite bind_run; [|].
  2:{ erewrite bind_run; [|apply (get_array_run w l o ks Hs Hl)].
      erewrite bind_run.
      2:{ unfold spread_store. erewrite bind_run; [|reflexivity]. simpl.
          rewrite Hs. unfold load. simpl.
          rewrite (lookup_app_l_Some _ _ _ _ Hl). reflexivity. }
      erewrite bind_run; [|unfold call; simpl; rewrite Hf; reflexivity].
      erewrite bind_run.
      2:{ unfold spread, spread_of in *. destruct r as [[| |b|z|s]|lr|b];
            try (inversion Hext; subst ext; reflexivity).
          unfold load. simpl. rewrite Hext. reflexivity. }
      erewrite bind_run; [|reflexivity].
      erewrite bind_run; [|exact Hc].
      erewrite bind_run; [|reflexivity].
      reflexivity. }
  simpl. rewrite Hls.
  erewrite notify_run; [reflexivity | reflexivity | reflexivity | exact Ho'].
Qed.

Lemma scan_prop_get (n : nat) (h : heap) (o : obj) (fs : list (string * tree))
    (k : string) :
  mapM (scan_prop n h) o = Some fs ->
  scan n h (prop_get o k) = Some (tree_get fs k).
Proof.
  rewrite mapM_Some. intros H.
  induction H as [|[k1 v] [k2 t] o fs Hkv _ IH]; simpl; [apply scan_prim|].
  unfold scan_prop in Hkv. simpl in Hkv.
  destruct (scan n h v) as [t'|] eqn:Hv; [|discriminate].
  simpl in Hkv. inversion Hkv; subst k2 t'; clear Hkv.
  destruct (decide (k1 = k)); [exact Hv | exact IH].
Qed.

Lemma prop_get_spread_over (a b : obj) (k : string) :
  k ∉ b.*1 -> prop_get (spread_over a b) k = prop_get a k.
Proof.
  unfold spread_over. revert a.
  induction b as [|[k' v] b IH]; intros a Hk; simpl; [reflexivity|].
  rewrite fmap_cons, not_elem_of_cons in Hk. simpl in Hk. destruct Hk as [Hne Hk].
  rewrite IH by exact Hk. apply prop_get_set_ne. exact Hne.
Qed.

Lemma prop_get_fresh (b : nat) (o : obj) (k : string) :
  Forall (fun kv => fresh_val b kv.2) o -> fresh_val b (prop_get o k).
Proof.
  induction 1 as [|[k' v] o Hv _ IH]; simpl; [exact I|].
  destruct (decide (k' = k)); [exact Hv | exact IH].
Qed.

Lemma set_array_dispatch (ks : list value) (setState : setter) :
  set (AArray ks) setState = (_set (AArray ks) setState ;;; return_this).
Proof. reflexivity. Qed.

Lemma scan_props_keys (n : nat) (h : heap) (o : obj) (fs : list (string * tree)) :
  mapM (scan_prop n h) o = Some fs -> fs.*1 = o.*1.
Proof.
  rewrite mapM_Some. induction 1 as [|[k v] [k' t] o fs Hkv _ IH]; [reflexivity|].
  unfold scan_prop in Hkv. simpl in Hkv.
  destruct (scan n h v); [|discriminate]. inversion Hkv; subst.
  rewrite !fmap_cons, IH. reflexivity.
Qed.

Lemma prop_get_spread_over_in (b : obj) :
  ∀ (a : obj) (k : string) (v : value),
    NoDup b.*1 -> (k, v) ∈ b -> prop_get (spread_over a b) k = v.
Proof.
  unfold spread_over. induction b as [|[k' v'] b IH]; intros a k v Hnd Hin.
  - apply elem_of_nil in Hin. destruct Hin.
  - rewrite fmap_cons in Hnd. apply NoDup_cons in Hnd. destruct Hnd as [Hk' Hnd].
    cbn [foldl fst snd]. apply elem_of_cons in Hin. destruct Hin as [E|Hin].
    + inversion E; subst k' v'.
      pose proof (prop_get_spread_over (prop_set a k v) b k Hk') as Hs.
      unfold spread_over in Hs. rewrite Hs. apply prop_get_set_eq.
    + apply IH; assumption.
Qed.

Lemma spread_over_keys (b : obj) :
  ∀ (a : obj) (k : string), k ∈ (spread_over a b).*1 <-> k ∈ a.*1 ∨ k ∈ b.*1.
Proof.
  unfold spread_over. induction b as [|[k' v'] b IH]; intros a k.
  - simpl. rewrite elem_of_nil. tauto.
  - cbn [foldl fst snd]. rewrite IH, prop_set_keys, fmap_cons, elem_of_cons. simpl. tauto.
Qed.

(** C6: a mass update [set(keys, callback)] merges the record returned by
    the callback over the live record and stores a deep copy of the merge as
    the new live record: every field the callback returned reads as the
    returned value, every other field reads as it did, and there are no other
    fields.  Then every listener whose key is in [keys] is invoked, in
    registration order, with what the new live record reads for its key.
    The invocations do not depend on the values: nothing is compared. *)
Theorem set_mass_notifies_always (w : world) (l : loc) (o : obj)
    (ls : list IStoreListener) (ks : list value) (f : jsfun) (r : value)
    (h2 : heap) (ext : obj) (t : tree) :
  _store (this w) = Some l ->
  mem w !! l = Some o ->
  _listeners (this w) = Some ls ->
  f (mem w ++ [pick o ks]) (VRef (List.length (mem w))) = (r, h2) ->
  spread_of h2 r = Some ext ->
  NoDup ext.*1 ->
  tree_of (h2 ++ [spread_over o ext]) (VRef (List.length h2)) = Some t ->
  ∃ w' s' o',
    set (AArray ks) (SFun f) w = Some (This, w')
    ∧ _store (this w') = Some s'
    ∧ mem w' !! s' = Some o'
    ∧ tree_of (mem w') (VRef s') = Some t
    ∧ (∀ k0 v0, (k0, v0) ∈ ext ->
         ∃ t0, tree_of (mem w') (prop_get o' k0) = Some t0
               ∧ tree_of (h2 ++ [spread_over o ext]) v0 = Some t0)
    ∧ (∀ k0, k0 ∉ ext.*1 ->
         ∃ t0, tree_of (mem w') (prop_get o' k0) = Some t0
               ∧ tree_of (h2 ++ [spread_over o ext]) (prop_get o k0) = Some t0)
    ∧ (∀ k0, k0 ∈ o'.*1 <-> k0 ∈ o.*1 ∨ k0 ∈ ext.*1)
    ∧ calls w' = calls w ++ notified ks ls o'
    ∧ (∀ i, i ∈ ls -> key i ∈ ks ->
         (cb i, proto_get o' (prop_name (key i))) ∈ drop (List.length (calls w)) (calls w')).
Proof.
  intros Hs Hl Hls Hf Hext Hnd Ht.
  assert (Hlen3 : List.length (h2 ++ [spread_over o ext]) = S (List.length h2))
    by (rewrite length_app; simpl; lia).
  unfold tree_of in Ht. rewrite Hlen3 in Ht.
  destruct (set_mass_run w l o ls ks f r h2 ext _ t Hs Hl Hls Hf Hext Ht (le_n _))
    as (s' & k & o' & Hrun & Ho' & Hsc & Hfr & Hcl).
  destruct (scan_ref_obj _ _ _ _ Ht) as (om & fs & Hom & Hfs & ->).
  destruct (scan_ref_obj _ _ _ _ Hsc) as (o'' & fs' & Ho'' & Hfs' & Efs).
  rewrite Ho' in Ho''. inversion Ho''; subst o''; clear Ho''.
  inversion Efs; subst fs'; clear Efs. simpl in Hfs, Hfs'.
  rewrite list_lookup_middle in Hom by reflexivity.
  inversion Hom; subst om; clear Hom.
  eexists _, s', o'. rewrite set_array_dispatch.
  split; [eapply returns_this; exact Hrun|]. cbn [mem this calls _store].
  split; [reflexivity|]. split; [exact Ho'|].
  split; [eapply scan_tree_of; [exact Hsc | rewrite length_app, Hlen3; lia]|].
  split.
  { intros k0 v0 Hin. exists (tree_get fs k0). split.
    - eapply scan_tree_of; [apply scan_prop_get; exact Hfs'|].
      rewrite length_app, Hlen3. lia.
    - rewrite <- (prop_get_spread_over_in ext o k0 v0 Hnd Hin).
      eapply scan_tree_of; [apply scan_prop_get; exact Hfs|]. lia. }
  split.
  { intros k0 Hk0. exists (tree_get fs k0). split.
    - eapply scan_tree_of; [apply scan_prop_get; exact Hfs'|].
      rewrite length_app, Hlen3. lia.
    - rewrite <- (prop_get_spread_over o ext k0 Hk0).
      eapply scan_tree_of; [apply scan_prop_get; exact Hfs|]. lia. }
  split.
  { intros k0. rewrite <- (scan_props_keys _ _ _ _ Hfs'), (scan_props_keys _ _ _ _ Hfs).
    apply spread_over_keys. }
  split; [reflexivity|].
  intros i Hi Hk. rewrite drop_app_length. unfold notified.
  apply (list_elem_of_fmap_2 (fun i => (cb i, proto_get o' (prop_name (key i))))).
  apply list_elem_of_filter. split; assumption.
Qed.

Lemma set_mass_notifies_always_witness :
  let w := {| mem := [[("a", VNum 1); ("b", VNum 2)]];
              this := {| _store := Some 0;
                         _listeners := Some [{| key := VStr "a"; cb := 3 |};
                                             {| key := VStr "b"; cb := 4 |};
                                             {| key := VStr "z"; cb := 5 |}];
                         _default := None |};
              calls := [] |} in
  let f : jsfun :=
    fun h v => (VRef (List.length h), h ++ [[("a", VNum 10); ("z", VNum 7)]]) in
  ∃ w' s' o',
    set (AArray [VStr "a"; VStr "b"]) (SFun f) w = Some (This, w')
    ∧ _store (this w') = Some s'
    ∧ mem w' !! s' = Some o'
    ∧ tree_of (mem w') (VRef s')
        = Some (TObj [("a", TPrim (PNum 10)); ("b", TPrim (PNum 2));
                      ("z", TPrim (PNum 7))])
    ∧ tree_of (mem w') (prop_get o' "a") = Some (TPrim (PNum 10))
    ∧ tree_of (mem w') (prop_get o' "b") = Some (TPrim (PNum 2))
    ∧ calls w' = notified [VStr "a"; VStr "b"]
                   [{| key := VStr "a"; cb := 3 |}; {| key := VStr "b"; cb := 4 |};
                    {| key := VStr "z"; cb := 5 |}] o'.
Proof.
  intros w f.
  destruct (set_mass_notifies_always w 0 [("a", VNum 1); ("b", VNum 2)]
              [{| key := VStr "a"; cb := 3 |}; {| key := VStr "b"; cb := 4 |};
               {| key := VStr "z"; cb := 5 |}]
              [VStr "a"; VStr "b"] f (VRef 2)
              [[("a", VNum 1); ("b", VNum 2)]; [("a", VNum 1); ("b", VNum 2)];
               [("a", VNum 10); ("z", VNum 7)]]
              [("a", VNum 10); ("z", VNum 7)]
              (TObj [("a", TPrim (PNum 10)); ("b", TPrim (PNum 2));
                     ("z", TPrim (PNum 7))]))
    as (w' & s' & o' & H1 & H2 & H3 & H4 & H5 & H6 & _ & H7 & _); try reflexivity.
  { refine (bool_decide_unpack _ _). vm_compute. exact I. }
  exists w', s', o'.
  split; [exact H1|]. split; [exact H2|]. split; [exact H3|]. split; [exact H4|].
  split.
  { destruct (H5 "a" (VNum 10)) as (t0 & Ht0 & E); [left|].
    rewrite Ht0, <- E. reflexivity. }
  split; [|exact H7].
  destruct (H6 "b") as (t0 & Ht0 & E).
  { vm_compute. intros H. inversion H as [|? ? ? H']; subst.
    inversion H' as [|? ? ? H'']; subst. inversion H''. }
  rewrite Ht0, <- E. reflexivity.
Defined.

(** C9: after a mass update the live state is a new deep copy of the whole
    merged record (the old live record overlaid with the record the callback
    returned).  It reads as the same tree as the merged record; every record
    reachable from it was allocated by the copy, so no record that existed
    before is part of the live state; each field is deep-equal to the field
    of the merged record, which for a field the callback did not return is
    the prior value, and when it holds a reference that reference is a new
    one, distinct from the prior one. *)
Theorem set_mass_fresh_copy (w : world) (l : loc) (o : obj)
    (ls : list IStoreListener) (ks : list value) (f : jsfun) (r : value)
    (h2 : heap) (ext : obj) (t : tree) :
  _store (this w) = Some l ->
  mem w !! l = Some o ->
  _listeners (this w) = Some ls ->
  f (mem w ++ [pick o ks]) (VRef (List.length (mem w))) = (r, h2) ->
  spread_of h2 r = Some ext ->
  tree_of (h2 ++ [spread_over o ext]) (VRef (List.length h2)) = Some t ->
  let merged := spread_over o ext in
  let h3 := h2 ++ [merged] in
  ∃ w' s' o' fs,
    set (AArray ks) (SFun f) w = Some (This, w')
    ∧ getAll w' = Some (Some s', w')
    ∧ mem w' !! s' = Some o'
    ∧ t = TObj fs
    ∧ tree_of (mem w') (VRef s') = Some t
    ∧ (∀ l0, l0 ∈ footprint (mem w') (VRef s') -> List.length h3 ≤ l0)
    ∧ (∀ l0 o0, h3 !! l0 = Some o0 ->
         mem w' !! l0 = Some o0 ∧ l0 ∉ footprint (mem w') (VRef s'))
    ∧ (∀ k0, tree_of (mem w') (prop_get o' k0) = Some (tree_get fs k0)
             ∧ tree_of h3 (prop_get merged k0) = Some (tree_get fs k0))
    ∧ (∀ k0, k0 ∉ ext.*1 -> prop_get merged k0 = prop_get o k0)
    ∧ (∀ k0 lv, prop_get o' k0 = VRef lv ->
         List.length h3 ≤ lv ∧ prop_get merged k0 ≠ VRef lv)
    ∧ (List.length (mem w) ≤ List.length h2 ->
       s' ≠ l ∧ ∀ l0, l0 < List.length (mem w) -> l0 ∉ footprint (mem w') (VRef s')).
Proof.
  intros Hs Hl Hls Hf Hext Ht merged h3.
  assert (Hlen3 : List.length h3 = S (List.length h2))
    by (unfold h3; rewrite length_app; simpl; lia).
  unfold tree_of in Ht. fold merged in Ht. fold h3 in Ht. rewrite Hlen3 in Ht.
  destruct (set_mass_run w l o ls ks f r h2 ext _ t Hs Hl Hls Hf Hext Ht (le_n _))
    as (s' & k & o' & Hrun & Ho' & Hsc & Hfr & Hcl).
  fold merged in Hrun, Ho', Hsc, Hcl. fold h3 in Hrun, Ho', Hsc, Hcl.
  destruct (scan_ref_obj _ _ _ _ Ht) as (om & fs & Hom & Hfs & ->).
  destruct (scan_ref_obj _ _ _ _ Hsc) as (o'' & fs' & Ho'' & Hfs' & Efs).
  rewrite Ho' in Ho''. inversion Ho''; subst o''; clear Ho''.
  inversion Efs; subst fs'; clear Efs. simpl in Hfs, Hfs'.
  unfold h3 in Hom. rewrite list_lookup_middle in Hom by reflexivity.
  inversion Hom; subst om; clear Hom.
  assert (Hfoot : ∀ l0, l0 ∈ footprint (h3 ++ k) (VRef s') -> List.length h3 ≤ l0).
  { intros l0 Hl0. rewrite Hlen3.
    exact (footprint_closed _ _ (VRef s') l0 Hcl Hfr Hl0). }
  assert (Hfresh : Forall (fun kv => fresh_val (S (List.length h2)) kv.2) o').
  { eapply Hcl; [exact Hfr | exact Ho']. }
  eexists _, s', o', fs. rewrite set_array_dispatch.
  split; [eapply returns_this; exact Hrun|]. simpl.
  split; [reflexivity|]. split; [exact Ho'|]. split; [reflexivity|].
  split; [eapply scan_tree_of; [exact Hsc | rewrite length_app, Hlen3; lia]|].
  split; [exact Hfoot|].
  split.
  { intros l0 o0 Hl0. split; [apply lookup_app_l_Some; exact Hl0|].
    intros Hin. apply Hfoot in Hin. apply lookup_lt_Some in Hl0. lia. }
  split.
  { intros k0. split.
    - eapply scan_tree_of; [apply scan_prop_get; exact Hfs'|].
      rewrite length_app, Hlen3. lia.
    - eapply scan_tree_of; [apply scan_prop_get; exact Hfs|]. lia. }
  split; [intros k0 Hk0; apply prop_get_spread_over; exact Hk0|].
  split.
  { intros k0 lv Hlv.
    pose proof (prop_get_fresh _ _ k0 Hfresh) as Hv. rewrite Hlv in Hv. simpl in Hv.
    split; [lia|]. intros Hm.
    pose proof (scan_prop_get _ _ _ _ k0 Hfs) as Hsm. rewrite Hm in Hsm.
    destruct (List.length h2) as [|n2] eqn:En; [discriminate|].
    destruct (scan_ref_obj _ _ _ _ Hsm) as (ox & _ & Hox & _).
    apply lookup_lt_Some in Hox. lia. }
  intros Hle. split.
  - apply lookup_lt_Some in Hl. lia.
  - intros l0 Hl0 Hin. apply Hfoot in Hin. lia.
Qed.

Lemma set_mass_fresh_copy_witness :
  let w := {| mem := [[("n", VNum 1)]; [("a", VRef 0); ("b", VNum 2)]];
              this := {| _store := Some 1; _listeners := Some []; _default := None |};
              calls := [] |} in
  let f : jsfun := fun h v => (VRef (List.length h), h ++ [[("b", VNum 3)]]) in
  ∃ w' s' o',
    set (AArray [VStr "b"]) (SFun f) w = Some (This, w')
    ∧ getAll w' = Some (Some s', w')
    ∧ mem w' !! s' = Some o'
    ∧ tree_of (mem w') (VRef s')
        = Some (TObj [("a", TObj [("n", TPrim (PNum 1))]); ("b", TPrim (PNum 3))])
    ∧ (∀ l0, l0 ∈ footprint (mem w') (VRef s') -> 5 ≤ l0)
    ∧ (∀ lv, prop_get o' "a" = VRef lv -> 5 ≤ lv ∧ VRef 0 ≠ VRef lv).
Proof.
  intros w f.
  destruct (set_mass_fresh_copy w 1 [("a", VRef 0); ("b", VNum 2)] []
              [VStr "b"] f (VRef 3)
              [[("n", VNum 1)]; [("a", VRef 0); ("b", VNum 2)]; [("b", VNum 2)];
               [("b", VNum 3)]]
              [("b", VNum 3)]
              (TObj [("a", TObj [("n", TPrim (PNum 1))]); ("b", TPrim (PNum 3))]))
    as (w' & s' & o' & fs & H1 & H2 & H3 & _ & H4 & H5 & _ & _ & _ & H6 & _);
    try reflexivity.
  exists w', s', o'.
  split; [exact H1|]. split; [exact H2|]. split; [exact H3|]. split; [exact H4|].
  split; [exact H5|]. intros lv Hlv. exact (H6 "a" lv Hlv).
Defined.

(** ** Record update on a new live record *)

Lemma prop_set_absent (o : obj) (k : string) (v : value) :
  k ∉ o.*1 -> prop_set o k v = o ++ [(k, v)].
Proof.
  induction o as [|[k' v'] o IH]; simpl; [reflexivity|].
  rewrite not_elem_of_cons. intros [Hne Hk].
  rewrite decide_False by congruence. rewrite IH by exact Hk. reflexivity.
Qed.

Lemma prop_get_app_absent (o o2 : obj) (k : string) :
  k ∉ o.*1 -> prop_get (o ++ o2) k = prop_get o2 k.
Proof.
  induction o as [|[k' v'] o IH]; simpl; [reflexivity|].
  rewrite not_elem_of_cons. intros [Hne Hk].
  rewrite decide_False by congruence. auto.
Qed.

Lemma closed_from_insert_below (b : nat) (h : heap) (l : loc) (o : obj) :
  closed_from b h -> l < b -> closed_from b (<[l := o]> h).
Proof.
  intros Hc Hl l' o' Hl' Ho'. rewrite list_lookup_insert_ne in Ho' by lia.
  eapply Hc; eassumption.
Qed.

Section RecordLoop.
Variables (h0 : heap) (d : loc) (od : obj) (ls : list IStoreListener)
          (s : Store) (n0 : nat).
Local Abbreviation l := (List.length h0).
Hypothesis Hstore : _store s = Some l.
Hypothesis Hlisteners : _listeners s = Some ls.
Hypothesis Hdata : h0 !! d = Some od.
Hypothesis Hfuel : n0 ≤ List.length h0.

Lemma set_record_loop (rest : obj) :
  ∀ (fs : list (string * tree)) (hc : heap) (oc : obj) (c0 : list (fn * value)),
    mapM (scan_prop n0 h0) rest = Some fs ->
    NoDup rest.*1 ->
    "__proto__" ∉ rest.*1 ->
    (∀ kv, kv ∈ rest -> proto_get od kv.1 = kv.2) ->
    (∀ kv, kv ∈ rest -> kv.1 ∉ oc.*1) ->
    (∀ l', l' < l -> hc !! l' = h0 !! l') ->
    hc !! l = Some oc ->
    closed_from (S l) hc ->
    Forall (fun kv => fresh_val (S l) kv.2) oc ->
    ∃ hc' cl,
      forEach rest.*1 (fun k =>
          o' <~ load d ;;
          _set (AVal (VStr k)) (SValue (proto_get o' k)))
        {| mem := hc; this := s; calls := c0 |}
      = Some (tt, {| mem := hc'; this := s; calls := c0 ++ record_calls ls (oc ++ cl) rest |})
      ∧ (∀ l', l' < l -> hc' !! l' = h0 !! l')
      ∧ hc' !! l = Some (oc ++ cl)
      ∧ closed_from (S l) hc'
      ∧ Forall (fun kv => fresh_val (S l) kv.2) cl
      ∧ mapM (scan_prop n0 hc') cl = Some fs
      ∧ (∀ v t, fresh_val (S l) v -> scan n0 hc v = Some t -> scan n0 hc' v = Some t).
Proof.
  induction rest as [|[k v] rest IH];
    intros fs hc oc c0 Hm Hnd Hnp Hget Habs Hag Hl Hcl Hfr.
  - exists hc, []. simpl in *. inversion Hm; subst fs.
    rewrite !app_nil_r. repeat split; auto.
  - apply mapM_Some in Hm. apply Forall2_cons_inv_l in Hm.
    destruct Hm as ([k' t] & fs' & Hkv & Hrest & ->).
    apply mapM_Some in Hrest.
    unfold scan_prop in Hkv. simpl in Hkv.
    destruct (scan n0 h0 v) as [t0|] eqn:Hv; [|discriminate].
    simpl in Hkv. inversion Hkv; subst k' t0; clear Hkv.
    rewrite fmap_cons in Hnd. simpl in Hnd. apply NoDup_cons in Hnd.
    destruct Hnd as [Hk Hnd].
    rewrite fmap_cons, not_elem_of_cons in Hnp. simpl in Hnp.
    destruct Hnp as [Hkp Hnp].
    pose proof (lookup_lt_Some _ _ _ Hl) as Hlt.
    pose proof (lookup_lt_Some _ _ _ Hdata) as Hdlt.
    assert (Hd : hc !! d = Some od) by (rewrite Hag by exact Hdlt; exact Hdata).
    assert (Hkabs : k ∉ oc.*1) by (apply (Habs (k, v)); left).
    assert (Hold : proto_get oc k = inherited k)
      by (apply proto_get_inherited; exact Hkabs).
    assert (Hvk : proto_get od k = v) by (apply (Hget (k, v)); left).
    assert (Hvc : scan n0 hc v = Some t).
    { eapply scan_agree; [exact Hv | lia |]. intros l' Hl'. apply Hag. exact Hl'. }
    set (w := {| mem := hc; this := s; calls := c0 |}).
    destruct (set_key_run w l oc oc ls (VStr k) (SValue v) v hc n0 t
                eq_refl Hstore Hl Hlisteners
                (apply_setter_structural _ _ _ _ _ _ Hvc) Hl Hvc ltac:(lia))
      as (c & k1 & Hrun & Hsc & Hfc & _ & Hcc).
    cbn [prop_name mem this calls w] in Hrun. rewrite Hold in Hrun.
    rewrite (write_prop_set _ _ _ (not_eq_sym Hkp)) in Hrun.
    rewrite proto_get_set_eq in Hrun.
    rewrite (prop_set_absent _ _ _ Hkabs) in Hrun.
    set (hc1 := <[l := oc ++ [(k, c)]]> (hc ++ k1)) in *.
    assert (Hcl1 : closed_from (S l) (hc ++ k1)).
    { apply closed_from_app; [exact Hcl | lia | exact Hcc]. }
    assert (Hfc1 : fresh_val (S l) c).
    { eapply fresh_val_le; [|exact Hfc]. lia. }
    assert (Hstab : ∀ v' t', fresh_val (S l) v' -> scan n0 hc v' = Some t' ->
                             scan n0 hc1 v' = Some t').
    { intros v' t' Hv' Hs'. unfold hc1.
      apply (scan_insert_below n0 n0 (S l) (hc ++ k1));
        [eapply scan_app; [exact Hs' | lia] | lia | exact Hcl1 | exact Hv' | lia]. }
    destruct (IH fs' hc1 (oc ++ [(k, c)])
                (c0 ++ (if decide (v = inherited k) then []
                        else (fun i => (cb i, c)) <$>
                               filter (fun i => key i = VStr k) ls)))
      as (hc' & cl & Hloop & Hag' & Hl' & Hcl' & Hfr' & Hm' & Hstab');
      try assumption.
    + intros kv Hin. apply Hget. right. exact Hin.
    + intros kv Hin. rewrite fmap_app, elem_of_app. simpl.
      rewrite list_elem_of_singleton. intros [Ho|Ho].
      * apply (Habs kv); [right; exact Hin | exact Ho].
      * apply Hk. rewrite <- Ho. apply list_elem_of_fmap_2. exact Hin.
    + intros l' Hl'. unfold hc1. rewrite list_lookup_insert_ne by lia.
      rewrite lookup_app_l by lia. apply Hag. exact Hl'.
    + unfold hc1. apply list_lookup_insert_eq. rewrite length_app. lia.
    + unfold hc1. apply closed_from_insert_below; [exact Hcl1 | lia].
    + apply Forall_app. split; [exact Hfr|]. constructor; [exact Hfc1 | constructor].
    + exists hc', ((k, c) :: cl).
      assert (Hck : proto_get (oc ++ (k, c) :: cl) k = c).
      { rewrite proto_get_own.
        - rewrite prop_get_app_absent by exact Hkabs. simpl.
          rewrite decide_True by reflexivity. reflexivity.
        - rewrite fmap_app, elem_of_app, fmap_cons. right. left. }
      replace (oc ++ (k, c) :: cl) with ((oc ++ [(k, c)]) ++ cl)
        by (rewrite <- app_assoc; reflexivity).
      split.
      { rewrite fmap_cons. cbn [forEach fst]. erewrite bind_run.
        2:{ erewrite bind_run; [|unfold load; simpl; rewrite Hd; reflexivity].
            rewrite Hvk. exact Hrun. }
        etransitivity; [exact Hloop|]. unfold record_calls. simpl.
        replace ((oc ++ [(k, c)]) ++ cl) with (oc ++ (k, c) :: cl)
          by (rewrite <- app_assoc; reflexivity).
        rewrite Hck, <- app_assoc. reflexivity. }
      split; [exact Hag'|]. split; [exact Hl'|]. split; [exact Hcl'|].
      split; [constructor; assumption|].
      split.
      { assert (Hc' : scan n0 hc' c = Some t).
        { apply (Hstab' c t Hfc1). unfold hc1.
          apply (scan_insert_below n0 n0 (S l) (hc ++ k1));
            [exact Hsc | lia | exact Hcl1 | exact Hfc1 | lia]. }
        apply mapM_Some. constructor; [|apply mapM_Some; exact Hm'].
        unfold scan_prop. simpl. rewrite Hc'. reflexivity. }
      intros v' t' Hv' Hs'. apply Hstab'; [exact Hv'|]. apply Hstab; assumption.
Qed.
End RecordLoop.


(** ** Enumeration order *)

Lemma array_index_pretty (k : string) (n : N) : array_index k = Some n -> pretty n = k.
Proof.
  unfold array_index. destruct k as [|c k]; [discriminate|].
  destruct (parse_digits 0 (String c k)) as [m|]; [|discriminate]. simpl.
  destruct (bool_decide (pretty m = String c k)) eqn:E; [|discriminate].
  apply bool_decide_eq_true in E. simpl.
  destruct (m <? 4294967295)%N; [|discriminate].
  intros H. inversion H; subst. exact E.
Qed.

Lemma indices_filter (ks : list string) :
  pretty <$> omap array_index ks = filter (fun k => ¬ array_index k = None) ks.
Proof.
  induction ks as [|k ks IH]; [reflexivity|].
  rewrite filter_cons.
  change (omap array_index (k :: ks))
    with (match array_index k with
          | Some n => n :: omap array_index ks
          | None => omap array_index ks
          end).
  destruct (array_index k) as [n|] eqn:E.
  - rewrite decide_True by discriminate. rewrite fmap_cons, IH.
    rewrite (array_index_pretty k n E). reflexivity.
  - rewrite decide_False by tauto. exact IH.
Qed.

(** [Object.keys] lists every own name once. *)
Lemma keys_order_perm (ks : list string) : keys_order ks ≡ₚ ks.
Proof.
  unfold keys_order.
  rewrite (merge_sort_Permutation N.le (omap array_index ks)), indices_filter.
  rewrite Permutation_app_comm. apply filter_app_complement.
Qed.

(** Names that are no array indices are listed in creation order. *)
Lemma keys_order_plain (ks : list string) :
  Forall (fun k => array_index k = None) ks -> keys_order ks = ks.
Proof.
  intros H. unfold keys_order.
  assert (E : omap array_index ks = []).
  { induction H as [|k ks Hk _ IH]; [reflexivity|]. simpl. rewrite Hk. exact IH. }
  rewrite E. simpl.
  induction H as [|k ks Hk _ IH]; [reflexivity|].
  rewrite filter_cons, decide_True by exact Hk. f_equal. apply IH.
  clear -E Hk. simpl in E. rewrite Hk in E. exact E.
Qed.

Lemma canon_keys (o : obj) : (canon o).*1 = Object_keys o.
Proof.
  unfold canon. rewrite <- list_fmap_compose.
  rewrite <- (list_fmap_id (Object_keys o)) at 2.
  apply list_fmap_ext. intros i k _. reflexivity.
Qed.

Lemma canon_elem (o : obj) (kv : string * value) :
  kv ∈ canon o -> kv.1 ∈ o.*1 ∧ proto_get o kv.1 = kv.2.
Proof.
  unfold canon. intros H. apply list_elem_of_fmap in H. destruct H as (k & -> & Hk).
  unfold Object_keys in Hk. rewrite keys_order_perm in Hk. simpl.
  split; [exact Hk | apply proto_get_own; exact Hk].
Qed.

Lemma canon_scan (n : nat) (h : heap) (o : obj) (fs : list (string * tree)) :
  mapM (scan_prop n h) o = Some fs ->
  mapM (scan_prop n h) (canon o) = Some (enum_fields fs).
Proof.
  intros Hm. unfold canon, enum_fields, Object_keys.
  rewrite (scan_props_keys _ _ _ _ Hm).
  induction (keys_order o.*1) as [|k ks IH]; [reflexivity|].
  rewrite !fmap_cons. apply mapM_Some. constructor; [|apply mapM_Some; exact IH].
  unfold scan_prop. simpl. rewrite (scan_prop_get _ _ _ _ k Hm). reflexivity.
Qed.

Lemma tree_get_NoDup (fs : list (string * tree)) (k : string) (t : tree) :
  NoDup fs.*1 -> (k, t) ∈ fs -> tree_get fs k = t.
Proof.
  induction fs as [|[k' t'] fs IH]; intros Hnd Hin.
  - apply elem_of_nil in Hin. contradiction.
  - rewrite fmap_cons in Hnd. apply NoDup_cons in Hnd. destruct Hnd as [Hk Hnd].
    simpl. apply elem_of_cons in Hin. destruct Hin as [E|Hin].
    + inversion E; subst. rewrite decide_True by reflexivity. reflexivity.
    + rewrite decide_False; [apply IH; assumption|].
      intros ->. apply Hk. simpl.
      apply (list_elem_of_fmap_2 fst _ (k, t)). exact Hin.
Qed.

Lemma fields_of_names (fs : list (string * tree)) :
  NoDup fs.*1 -> (fun k => (k, tree_get fs k)) <$> fs.*1 = fs.
Proof.
  intros Hnd. rewrite <- list_fmap_compose.
  transitivity (id <$> fs); [|apply list_fmap_id].
  apply list_fmap_ext. intros i [k t] Hi. simpl.
  rewrite (tree_get_NoDup fs k t Hnd); [reflexivity|].
  eapply list_elem_of_lookup_2. exact Hi.
Qed.

(** The fields in enumeration order are the same fields. *)
Lemma enum_fields_perm (fs : list (string * tree)) :
  NoDup fs.*1 -> enum_fields fs ≡ₚ fs.
Proof.
  intros Hnd. unfold enum_fields.
  etransitivity; [apply fmap_Permutation, keys_order_perm|].
  rewrite (fields_of_names fs Hnd). reflexivity.
Qed.

Lemma enum_fields_plain (fs : list (string * tree)) :
  NoDup fs.*1 -> Forall (fun k => array_index k = None) fs.*1 -> enum_fields fs = fs.
Proof.
  intros Hnd Hp. unfold enum_fields. rewrite (keys_order_plain _ Hp).
  apply fields_of_names. exact Hnd.
Qed.

(** ** [restoreDefault] *)

Lemma clearStore_run (w : world) :
  clearStore w =
    Some (This, {| mem := mem w ++ [[]];
                   this := {| _store := Some (List.length (mem w));
                              _listeners := _listeners (this w);
                              _default := _default (this w) |};
                   calls := calls w |}).
Proof. reflexivity. Qed.

(** The run of [restoreDefault]: [d] is the record that is restored, either
    the argument or the default snapshot. *)
Lemma restoreDefault_run (w : world) (defaultData : option loc) (d : loc)
    (od : obj) (ls : list IStoreListener) (fs : list (string * tree)) :
  defaultData = Some d ∨ (defaultData = None ∧ _default (this w) = Some d) ->
  _listeners (this w) = Some ls ->
  mem w !! d = Some od ->
  NoDup od.*1 ->
  "__proto__" ∉ od.*1 ->
  tree_of (mem w) (VRef d) = Some (TObj fs) ->
  ∃ hc' o',
    restoreDefault defaultData w =
      Some (This, {| mem := hc';
                     this := {| _store := Some (List.length (mem w));
                                _listeners := Some ls;
                                _default := _default (this w) |};
                     calls := calls w ++ record_calls ls o' (canon od) |})
    ∧ (∀ l', l' < List.length (mem w) -> hc' !! l' = mem w !! l')
    ∧ hc' !! List.length (mem w) = Some o'
    ∧ closed_from (S (List.length (mem w))) hc'
    ∧ Forall (fun kv => fresh_val (S (List.length (mem w))) kv.2) o'
    ∧ tree_of hc' (VRef (List.length (mem w))) = Some (TObj (enum_fields fs)).
Proof.
  intros Hsrc Hls Hd Hnd Hnp Ht.
  pose proof (lookup_lt_Some _ _ _ Hd) as Hdlt.
  destruct (scan_ref_obj _ _ _ _ Ht) as (o & fs0 & Ho & Hm & Efs).
  rewrite Hd in Ho. inversion Ho; subst o; clear Ho.
  inversion Efs; subst fs0; clear Efs.
  set (s1 := {| _store := Some (List.length (mem w)); _listeners := Some ls;
                _default := _default (this w) |}).
  destruct (set_record_loop (mem w) d od ls s1 (pred (List.length (mem w)))
              eq_refl eq_refl Hd ltac:(lia) (canon od) (enum_fields fs)
              (mem w ++ [[]]) [] (calls w))
    as (hc' & cl & Hloop & Hag & Hl & Hcl & Hfr & Hm' & _).
  - apply canon_scan. exact Hm.
  - rewrite canon_keys. unfold Object_keys. rewrite keys_order_perm. exact Hnd.
  - rewrite canon_keys. unfold Object_keys. rewrite keys_order_perm. exact Hnp.
  - intros kv Hin. apply canon_elem. exact Hin.
  - intros kv _ Hin. apply elem_of_nil in Hin. exact Hin.
  - intros l' Hl'. apply lookup_app_l. exact Hl'.
  - apply list_lookup_middle. reflexivity.
  - intros l' o Hl' Ho. apply lookup_lt_Some in Ho.
    rewrite length_app in Ho. simpl in Ho. lia.
  - constructor.
  - exists hc', cl. simpl in Hl, Hloop. rewrite canon_keys in Hloop.
    split; [|split; [exact Hag | split; [exact Hl | split; [exact Hcl | split; [exact Hfr|]]]]].
    + assert (Hset : set1 (AVal (VRef d))
                 {| mem := mem w ++ [[]]; this := s1; calls := calls w |}
               = Some (This, {| mem := hc'; this := s1;
                                calls := calls w ++ record_calls ls cl (canon od) |})).
      { unfold set1, set. simpl. eapply returns_this.
        erewrite bind_run;
          [|unfold load; simpl; rewrite (lookup_app_l_Some _ _ _ _ Hd); reflexivity].
        exact Hloop. }
      unfold restoreDefault.
      erewrite bind_run; [|apply clearStore_run]. rewrite Hls.
      fold s1. eapply returns_this. destruct Hsrc as [->|[-> Hdef]].
      * exact Hset.
      * erewrite bind_run; [|reflexivity]. unfold s1 in *. simpl.
        rewrite Hdef in *. exact Hset.
    + apply (scan_tree_of (S (pred (List.length (mem w))))).
      * rewrite scan_ref. unfold loc in *. rewrite Hl. simpl. rewrite Hm'. reflexivity.
      * apply lookup_lt_Some in Hl. lia.
Qed.







(** The record update runs in the order [Object.keys] lists the fields:
    after [set('b', 20)] and [set(1, 10)] the live record was created in the
    order [b], [1], and [restoreDefault(getAll())] calls the listener of [1]
    before the listener of [b]. *)
Example restoreDefault_order_run :
  let w := {| mem := [[("b", VNum 20); ("1", VNum 10)]];
              this := {| _store := Some 0;
                         _listeners := Some [{| key := VStr "b"; cb := 2 |};
                                             {| key := VStr "1"; cb := 1 |}];
                         _default := None |};
              calls := [] |} in
  (w' ← exec (restoreDefault (Some 0)) w; Some (calls w'))
  = Some [(1, VNum 10); (2, VNum 20)].
Proof. reflexivity. Qed.

(** A field that has a name of [Object.prototype] notifies also when it is
    restored as [undefined]: the new empty record reads the inherited
    function for it. *)
Example restoreDefault_inherited_name_run :
  let w := {| mem := [[]; [("toString", VUndef); ("u", VUndef)]];
              this := {| _store := Some 0;
                         _listeners := Some [{| key := VStr "toString"; cb := 1 |};
                                             {| key := VStr "u"; cb := 2 |}];
                         _default := Some 1 |};
              calls := [] |} in
  (w' ← exec (restoreDefault None) w; Some (calls w')) = Some [(1, VUndef)].
Proof. reflexivity. Qed.

(** A function-valued field is not restored as a value: it is called as an
    updater with the old value, here [undefined], and the listener of the
    field gets what the call returned. *)
Example restoreDefault_function_field_run :
  let w := {| mem := [[]; [("f", VBuiltin proto_toString)]];
              this := {| _store := Some 0;
                         _listeners := Some [{| key := VStr "f"; cb := 1 |}];
                         _default := Some 1 |};
              calls := [] |} in
  (w' ← exec (restoreDefault None) w; Some (calls w'))
  = Some [(1, VStr "[object Undefined]")].
Proof. reflexivity. Qed.

(** A field named [__proto__] is not restored: its value, a primitive here,
    is assigned to the accessor, which ignores it, but differs from what the
    key read before, so the listener of the key is still called. *)
Example restoreDefault_proto_field_run :
  let w := {| mem := [[]; [("__proto__", VNum 5); ("a", VNum 1)]];
              this := {| _store := Some 0;
                         _listeners := Some [{| key := VStr "__proto__"; cb := 1 |}];
                         _default := Some 1 |};
              calls := [] |} in
  (w' ← exec (restoreDefault None) w; s ← _store (this w'); mem w' !! s)
  = Some [("a", VNum 1)]
  ∧ invoked (restoreDefault None) w = Some [1].
Proof. split; reflexivity. Qed.

(** ** Default snapshot and live state are separate *)

Lemma closed_from_pred (b : nat) (h : heap) (o : obj) :
  closed_from (S b) h ->
  h !! b = Some o ->
  Forall (fun kv => fresh_val (S b) kv.2) o ->
  closed_from b h.
Proof.
  intros Hc Hb Ho l' o' Hl' Ho'.
  destruct (decide (l' = b)) as [->|Hne].
  - rewrite Hb in Ho'. inversion Ho'; subst o'.
    eapply Forall_impl; [exact Ho|]. intros kv. apply fresh_val_le. lia.
  - eapply Forall_impl; [apply (Hc l' o'); [lia | exact Ho']|].
    intros kv. apply fresh_val_le. lia.
Qed.

(** C8 (as the code has it): for a default record [D] made of primitives
    and nested records, without a field named [__proto__], after
    [configureDefault(D)] and [restoreDefault()] the record [getAll()]
    returns is deep-equal to [D]: it has the fields of [D], each reading as
    the same tree, created in the order [Object.keys] lists them (the order
    of [D] itself when no name is an array index).  The record and
    everything reachable from it is separate from the default snapshot:
    whatever is written into any of these records, the snapshot still reads
    as [D] and a later [restoreDefault()] yields a live state deep-equal to
    [D] again. *)
Theorem default_roundtrip_isolated (w : world) (D : loc) (oD : obj)
    (ls : list IStoreListener) (fs : list (string * tree)) :
  _listeners (this w) = Some ls ->
  mem w !! D = Some oD ->
  NoDup oD.*1 ->
  "__proto__" ∉ oD.*1 ->
  tree_of (mem w) (VRef D) = Some (TObj fs) ->
  ∃ w1 s1 d1,
    (configureDefault D ;;; restoreDefault None ;;; getAll) w = Some (Some s1, w1)
    ∧ tree_of (mem w1) (VRef s1) = Some (TObj (enum_fields fs))
    ∧ enum_fields fs ≡ₚ fs
    ∧ (Forall (fun k => array_index k = None) oD.*1 -> enum_fields fs = fs)
    ∧ _default (this w1) = Some d1
    ∧ tree_of (mem w1) (VRef d1) = Some (TObj fs)
    ∧ (d1 ∉ footprint (mem w1) (VRef s1))
    ∧ (∀ l o, l ∈ footprint (mem w1) (VRef s1) ->
        let w1' := {| mem := <[l := o]> (mem w1); this := this w1; calls := calls w1 |} in
        tree_of (mem w1') (VRef d1) = Some (TObj fs)
        ∧ ∃ w2 s2,
            (restoreDefault None ;;; getAll) w1' = Some (Some s2, w2)
            ∧ tree_of (mem w2) (VRef s2) = Some (TObj (enum_fields fs))).
Proof.
  intros Hls HD Hnd Hnp Ht.
  destruct (scan_ref_obj _ _ _ _ Ht) as (o0 & fs0 & Ho0 & HmD & E0).
  rewrite HD in Ho0. inversion Ho0; subst o0; clear Ho0.
  inversion E0; subst fs0; clear E0.
  destruct (clone_run _ w (VRef D) _ Ht (le_n _))
    as (c & k & Hc & Hsc & Hfr & _ & Hclc).
  destruct (scan_obj_ref _ _ _ _ Hsc) as [d1 ->]. simpl in Hfr.
  destruct (scan_ref_obj _ _ _ _ Hsc) as (od & fs1 & Hod & Hmd & Efs).
  inversion Efs; subst fs1; clear Efs.
  set (h1 := mem w ++ k) in *.
  assert (Hlen1 : List.length (mem w) ≤ List.length h1)
    by (unfold h1; rewrite length_app; lia).
  pose proof (lookup_lt_Some _ _ _ Hod) as Hd1lt.
  assert (Hkeys : od.*1 = oD.*1).
  { rewrite <- (scan_props_keys _ _ _ _ Hmd), (scan_props_keys _ _ _ _ HmD). reflexivity. }
  assert (Hndd : NoDup od.*1) by (rewrite Hkeys; exact Hnd).
  assert (Hnpd : "__proto__" ∉ od.*1) by (rewrite Hkeys; exact Hnp).
  assert (Hndf : NoDup fs.*1) by (rewrite (scan_props_keys _ _ _ _ HmD); exact Hnd).
  assert (Htd : tree_of h1 (VRef d1) = Some (TObj fs))
    by (eapply scan_tree_of; [exact Hsc | exact Hlen1]).
  set (wc := {| mem := h1;
                this := {| _store := _store (this w); _listeners := _listeners (this w);
                           _default := Some d1 |};
                calls := calls w |}).
  destruct (restoreDefault_run wc None d1 od ls fs) as
    (hc' & o' & Hrun & Hag & Hl & Hcl & Hfo & Ht'); try assumption.
  { right. split; reflexivity. }
  simpl in Hrun, Hag, Hl, Hcl, Hfo, Ht'.
  assert (Hfoot : ∀ l, l ∈ footprint hc' (VRef (List.length h1)) -> List.length h1 ≤ l).
  { intros l Hl0.
    exact (footprint_closed _ _ (VRef (List.length h1)) l
             (closed_from_pred _ _ _ Hcl Hl Hfo) (le_n _) Hl0). }
  eexists _, (List.length h1), d1. split.
  { erewrite bind_run.
    2:{ unfold configureDefault. eapply returns_this.
        erewrite bind_run; [|exact Hc].
        unfold assign_default. erewrite bind_run; [|reflexivity]. reflexivity. }
    erewrite bind_run; [|exact Hrun]. reflexivity. }
  simpl. split; [exact Ht'|].
  split; [apply enum_fields_perm; exact Hndf|].
  split.
  { intros Hp. apply enum_fields_plain; [exact Hndf|].
    rewrite (scan_props_keys _ _ _ _ HmD). exact Hp. }
  split; [reflexivity|].
  assert (Hagree : ∀ l o l', List.length h1 ≤ l -> l' < List.length h1 ->
                     <[l := o]> hc' !! l' = h1 !! l').
  { intros l o l' Hge Hlt. rewrite list_lookup_insert_ne by lia. apply Hag. exact Hlt. }
  split.
  { eapply scan_tree_of; [eapply scan_agree; [exact Hsc | reflexivity |]|].
    - intros l' Hl'. apply Hag. exact Hl'.
    - apply lookup_lt_Some in Hl. lia. }
  split; [intros Hin; apply Hfoot in Hin; lia|].
  intros l o Hin. apply Hfoot in Hin. simpl.
  assert (Htm : tree_of (<[l := o]> hc') (VRef d1) = Some (TObj fs)).
  { eapply scan_tree_of; [eapply scan_agree; [exact Hsc | reflexivity |]|].
    - intros l' Hl'. apply Hagree; assumption.
    - rewrite length_insert. apply lookup_lt_Some in Hl. lia. }
  split; [exact Htm|].
  set (w1' := {| mem := <[l := o]> hc';
                 this := {| _store := Some (List.length h1); _listeners := Some ls;
                            _default := Some d1 |};
                 calls := calls w ++ record_calls ls o' (canon od) |}).
  destruct (restoreDefault_run w1' None d1 od ls fs) as
    (hc2 & o2 & Hrun2 & _ & _ & _ & _ & Ht2); try assumption.
  { right. split; reflexivity. }
  { reflexivity. }
  { simpl. rewrite Hagree by assumption. exact Hod. }
  eexists _, _. split.
  { erewrite bind_run; [|exact Hrun2]. reflexivity. }
  exact Ht2.
Qed.

Lemma default_roundtrip_isolated_witness :
  let w := {| mem := [[]; []; [("n", VNum 1)];
                      [("a", VRef 2); ("b", VNum 2); ("0", VNull)]];
              this := {| _store := Some 0; _listeners := Some []; _default := Some 1 |};
              calls := [] |} in
  let t := TObj [("0", TPrim PNull); ("a", TObj [("n", TPrim (PNum 1))]);
                 ("b", TPrim (PNum 2))] in
  ∃ w1 s1,
    (configureDefault 3 ;;; restoreDefault None ;;; getAll) w = Some (Some s1, w1)
    ∧ tree_of (mem w1) (VRef s1) = Some t
    ∧ ∀ o, ∃ w2 s2,
        (restoreDefault None ;;; getAll)
          {| mem := <[s1 := o]> (mem w1); this := this w1; calls := calls w1 |}
          = Some (Some s2, w2)
        ∧ tree_of (mem w2) (VRef s2) = Some t.
Proof.
  intros w t.
  destruct (default_roundtrip_isolated w 3 [("a", VRef 2); ("b", VNum 2); ("0", VNull)] []
              [("a", TObj [("n", TPrim (PNum 1))]); ("b", TPrim (PNum 2));
               ("0", TPrim PNull)])
    as (w1 & s1 & d1 & H1 & H2 & _ & _ & _ & _ & _ & H3).
  - reflexivity.
  - reflexivity.
  - refine (bool_decide_unpack _ _). vm_compute. exact I.
  - refine (bool_decide_unpack _ _). vm_compute. exact I.
  - reflexivity.
  - exists w1, s1. split; [exact H1|]. split; [exact H2|].
    intros o. apply (H3 s1 o). apply reach_head.
Defined.

(** C8 (as the spec words it) fails for a default record with a
    function-valued field: the record update of [restoreDefault] passes the
    field to the single-key setter, which calls a function as an updater
    instead of storing it.  With [D = {f: Object.prototype.toString}] the
    live state after [configureDefault(D)] and [restoreDefault()] holds the
    string the call returned, not the function. *)
Lemma default_roundtrip_calls_function_field :
  let D := [("f", VBuiltin proto_toString)] in
  let w := {| mem := [[]; []; D];
              this := {| _store := Some 0; _listeners := Some []; _default := Some 1 |};
              calls := [] |} in
  ∃ w1 s1 o1,
    (configureDefault 2 ;;; restoreDefault None ;;; getAll) w = Some (Some s1, w1)
    ∧ mem w1 !! s1 = Some o1
    ∧ mem w1 !! 2 = Some D
    ∧ is_function (prop_get D "f") = true
    ∧ prop_get o1 "f" = VStr "[object Undefined]"
    ∧ prop_get o1 "f" ≠ prop_get D "f"
    ∧ tree_of (mem w1) (VRef s1)
      = Some (TObj [("f", TPrim (PStr "[object Undefined]"))])
    ∧ tree_of (mem w1) (VRef s1) ≠ tree_of (mem w1) (VRef 2).
Proof.
  intros D w. eexists _, _, _. split; [reflexivity|]. cbn [mem].
  split; [reflexivity|]. split; [reflexivity|]. split; [reflexivity|].
  split; [reflexivity|]. split; [discriminate|]. split; [reflexivity|]. discriminate.
Qed.

(** ** The end-to-end runs of the spec *)

(** [new Store({count: 0})], [subscribe('count', cb)], then
    [set('count', c => c + 1)]: [cb] is called once with [1] and the live
    state is [{count: 1}]. *)
Example counter_run :
  let inc : jsfun := fun h v => (match v with VNum z => VNum (z + 1) | _ => v end, h) in
  let run :=
    d <~ alloc [("count", VNum 0)] ;;
    (constructor (Some d)) ;;;
    (subscribe (VStr "count") 1) ;;;
    set (AVal (VStr "count")) (SFun inc) in
  (w ← exec run empty_world; Some (calls w)) = Some [(1, VNum 1)]
  ∧ (w ← exec run empty_world; s ← _store (this w); tree_of (mem w) (VRef s))
    = Some (TObj [("count", TPrim (PNum 1))]).
Proof. split; reflexivity. Qed.

(** A mass update whose callback returns the values it was given still
    invokes the listeners of both keys. *)
Example mass_same_values_run :
  let w := {| mem := [[("a", VNum 1); ("b", VNum 2)]];
              this := {| _store := Some 0;
                         _listeners := Some [{| key := VStr "a"; cb := 3 |};
                                             {| key := VStr "b"; cb := 4 |}];
                         _default := None |};
              calls := [] |} in
  (w' ← exec (set (AArray [VStr "a"; VStr "b"]) (SFun (fun h v => (v, h)))) w;
   Some (calls w')) = Some [(3, VNum 1); (4, VNum 2)].
Proof. reflexivity. Qed.

(** Setting a key to the value it already has does not notify; setting it to
    the very record the store holds does not notify either, but a record
    that is only deep-equal does. *)
Example same_value_runs :
  let w := {| mem := [[("n", VNum 1)]; [("x", VNum 5); ("r", VRef 0)]; [("n", VNum 1)]];
              this := {| _store := Some 1;
                         _listeners := Some [{| key := VStr "x"; cb := 3 |};
                                             {| key := VStr "r"; cb := 4 |}];
                         _default := None |};
              calls := [] |} in
  invoked (set (AVal (VStr "x")) (SValue (VNum 5))) w = Some []
  ∧ invoked (set (AVal (VStr "r")) (SValue (VRef 0))) w = Some []
  ∧ invoked (set (AVal (VStr "r")) (SValue (VRef 2))) w = Some [4].
Proof. repeat split. Qed.

(** * Further properties of the store *)

(** ** The registration list *)

Lemma keeps_new (k : value) (c : fn) : keeps k c {| key := k; cb := c |} = false.
Proof.
  unfold keeps, strict_neq. simpl. rewrite bool_decide_eq_true_2 by reflexivity.
  reflexivity.
Qed.

Lemma filter_keeps_idem (k : value) (c : fn) (ls : list IStoreListener) :
  List.filter (keeps k c) (List.filter (keeps k c) ls) = List.filter (keeps k c) ls.
Proof.
  induction ls as [|i ls IH]; [reflexivity|]. simpl.
  destruct (keeps k c i) eqn:E; [|exact IH]. simpl. rewrite E, IH. reflexivity.
Qed.

Lemma filter_keeps_all (k : value) (c : fn) (ls : list IStoreListener) :
  Forall (fun i => key i ≠ k ∧ cb i ≠ c) ls -> List.filter (keeps k c) ls = ls.
Proof.
  induction 1 as [|i ls Hi _ IH]; [reflexivity|]. simpl.
  rewrite (proj2 (keeps_spec k c i) Hi), IH. reflexivity.
Qed.

Lemma filter_keeps_elem (k : value) (c : fn) (ls : list IStoreListener)
    (i : IStoreListener) :
  i ∈ List.filter (keeps k c) ls <-> i ∈ ls ∧ key i ≠ k ∧ cb i ≠ c.
Proof. rewrite filter_keeps, list_elem_of_filter. tauto. Qed.

Lemma NoDup_fmap_filter_keeps {B} (f : IStoreListener -> B) (k : value) (c : fn)
    (ls : list IStoreListener) :
  NoDup (f <$> ls) -> NoDup (f <$> List.filter (keeps k c) ls).
Proof.
  induction ls as [|i ls IH]; [intros _; constructor|].
  rewrite fmap_cons. intros Hnd. apply NoDup_cons in Hnd. destruct Hnd as [Hi Hnd].
  simpl. destruct (keeps k c i); [|apply IH; exact Hnd].
  rewrite fmap_cons. apply NoDup_cons. split; [|apply IH; exact Hnd].
  intros Hin. apply Hi. apply list_elem_of_fmap in Hin. destruct Hin as (j & -> & Hj).
  apply list_elem_of_fmap_2. apply filter_keeps_elem in Hj. tauto.
Qed.

Lemma distinct_after_subscribe (k : value) (c : fn) (ls : list IStoreListener) :
  distinct_listeners ls ->
  distinct_listeners (List.filter (keeps k c) ls ++ [{| key := k; cb := c |}]).
Proof.
  intros [Hk Hc]. split; rewrite fmap_app; apply NoDup_app.
  - split; [apply NoDup_fmap_filter_keeps; exact Hk|]. split; [|apply NoDup_singleton].
    intros x Hx Hin. apply list_elem_of_singleton in Hin. simpl in Hin. subst x.
    apply list_elem_of_fmap in Hx. destruct Hx as (j & Hj & Hin).
    apply filter_keeps_elem in Hin. destruct Hin as (_ & Hne & _). congruence.
  - split; [apply NoDup_fmap_filter_keeps; exact Hc|]. split; [|apply NoDup_singleton].
    intros x Hx Hin. apply list_elem_of_singleton in Hin. simpl in Hin. subst x.
    apply list_elem_of_fmap in Hx. destruct Hx as (j & Hj & Hin).
    apply filter_keeps_elem in Hin. destruct Hin as (_ & _ & Hne). congruence.
Qed.

Lemma subscribe_result (w : world) (ls : list IStoreListener) (k : value) (c : fn) :
  _listeners (this w) = Some ls ->
  subscribe k c w =
    Some (_removeListener k c,
          {| mem := mem w;
             this := {| _store := _store (this w);
                        _listeners := Some (List.filter (keeps k c) ls
                                            ++ [{| key := k; cb := c |}]);
                        _default := _default (this w) |};
             calls := calls w |}).
Proof. intros H. munfold. simpl. rewrite H. reflexivity. Qed.

(** X1: the registrations of a store never share a key and never share a
    callback: the empty list of a new store has the property, and
    [subscribe], [unsubscribe] and [clearListeners] keep it. *)
Theorem listeners_stay_distinct (w : world) (ls : list IStoreListener)
    (k : value) (c : fn) :
  _listeners (this w) = Some ls ->
  distinct_listeners ls ->
  (∃ ls1, listeners_after (subscribe k c) w = Some ls1 ∧ distinct_listeners ls1)
  ∧ (∃ ls2, listeners_after (unsubscribe k c) w = Some ls2 ∧ distinct_listeners ls2)
  ∧ (∃ ls3, listeners_after clearListeners w = Some ls3 ∧ distinct_listeners ls3)
  ∧ (∃ ls0, listeners_after (constructor None) w = Some ls0 ∧ distinct_listeners ls0).
Proof.
  intros H Hd. split; [|split; [|split]].
  - eexists. split.
    + unfold listeners_after. rewrite (subscribe_run w ls k c H). reflexivity.
    + apply distinct_after_subscribe. exact Hd.
  - eexists. split.
    + unfold listeners_after, exec, unsubscribe.
      erewrite returns_this; [|apply (removeListener_run w ls k c H)]. reflexivity.
    + destruct Hd as [Hk Hc]. split; apply NoDup_fmap_filter_keeps; assumption.
  - exists []. split; [reflexivity|]. split; constructor.
  - exists []. split; [reflexivity|]. split; constructor.
Qed.

Lemma listeners_stay_distinct_witness :
  ∃ ls1, listeners_after (subscribe (VStr "b") 2)
           {| mem := [[]];
              this := {| _store := Some 0;
                         _listeners := Some [{| key := VStr "a"; cb := 1 |}];
                         _default := None |};
              calls := [] |} = Some ls1
    ∧ distinct_listeners ls1.
Proof.
  destruct (listeners_stay_distinct
              {| mem := [[]];
                 this := {| _store := Some 0;
                            _listeners := Some [{| key := VStr "a"; cb := 1 |}];
                            _default := None |};
                 calls := [] |}
              [{| key := VStr "a"; cb := 1 |}] (VStr "b") 2) as (H & _).
  - reflexivity.
  - split; apply NoDup_singleton.
  - exact H.
Defined.

(** X2: subscribing the same pair twice in a row leaves the registrations
    a single subscription leaves. *)
Theorem subscribe_idempotent (w : world) (ls : list IStoreListener)
    (k : value) (c : fn) :
  _listeners (this w) = Some ls ->
  exec (subscribe k c ;;; subscribe k c) w = exec (subscribe k c) w
  ∧ is_Some (exec (subscribe k c) w).
Proof.
  intros H. rewrite (subscribe_run w ls k c H). split; [|eauto].
  unfold exec. erewrite bind_run; [|apply (subscribe_result w ls k c H)].
  erewrite subscribe_result; [|reflexivity]. simpl.
  rewrite List.filter_app, filter_keeps_idem. simpl. rewrite keeps_new, app_nil_r.
  reflexivity.
Qed.

Lemma subscribe_idempotent_witness :
  exec (subscribe (VStr "a") 1 ;;; subscribe (VStr "a") 1) fresh_store
  = exec (subscribe (VStr "a") 1) fresh_store.
Proof. apply (subscribe_idempotent fresh_store [] (VStr "a") 1). reflexivity. Defined.

(** X3: calling the function [subscribe(key, cb)] returns, right after the
    subscription, leaves what [unsubscribe(key, cb)] alone would have left:
    the new pair is gone, and so is every earlier registration that shared
    the key or the callback. *)
Theorem subscribe_then_remover (w : world) (ls : list IStoreListener)
    (k : value) (c : fn) :
  _listeners (this w) = Some ls ->
  exec (remover <~ subscribe k c ;; remover) w = exec (unsubscribe k c) w
  ∧ listeners_after (unsubscribe k c) w
    = Some (filter (fun i => key i ≠ k ∧ cb i ≠ c) ls).
Proof.
  intros H. unfold listeners_after, exec, unsubscribe.
  erewrite (returns_this (_removeListener k c)); [|apply (removeListener_run w ls k c H)].
  simpl. rewrite filter_keeps.
  split; [|reflexivity].
  erewrite bind_run; [|apply (subscribe_result w ls k c H)].
  erewrite removeListener_run; [|reflexivity]. simpl.
  rewrite List.filter_app, filter_keeps_idem. simpl. rewrite keeps_new, app_nil_r.
  rewrite filter_keeps. reflexivity.
Qed.

Lemma subscribe_then_remover_witness :
  listeners_after (unsubscribe (VStr "a") 2)
    {| mem := [[]];
       this := {| _store := Some 0;
                  _listeners := Some [{| key := VStr "a"; cb := 1 |}];
                  _default := None |};
       calls := [] |}
  = Some (filter (fun i => key i ≠ VStr "a" ∧ cb i ≠ 2) [{| key := VStr "a"; cb := 1 |}]).
Proof.
  apply (subscribe_then_remover
           {| mem := [[]];
              this := {| _store := Some 0;
                         _listeners := Some [{| key := VStr "a"; cb := 1 |}];
                         _default := None |};
              calls := [] |} [{| key := VStr "a"; cb := 1 |}] (VStr "a") 2).
  reflexivity.
Defined.

(** X4: [unsubscribe(key, cb)] changes nothing when no registration has the
    key [key] or the callback [cb]. *)
Theorem unsubscribe_unrelated_noop (w : world) (ls : list IStoreListener)
    (k : value) (c : fn) :
  _listeners (this w) = Some ls ->
  Forall (fun i => key i ≠ k ∧ cb i ≠ c) ls ->
  unsubscribe k c w = Some (This, w).
Proof.
  intros H Hall. unfold unsubscribe. eapply returns_this.
  rewrite (removeListener_run w ls k c H).
  rewrite (filter_keeps_all k c ls Hall).
  destruct w as [h [s l d] cs]. simpl in *. subst l. reflexivity.
Qed.

Lemma unsubscribe_unrelated_noop_witness :
  let w := {| mem := [[("a", VNum 1)]];
              this := {| _store := Some 0;
                         _listeners := Some [{| key := VStr "a"; cb := 1 |};
                                             {| key := VStr "b"; cb := 2 |}];
                         _default := None |};
              calls := [(1, VNum 1)] |} in
  unsubscribe (VStr "zzz") 9 w = Some (This, w).
Proof.
  intros w.
  apply (unsubscribe_unrelated_noop w
           [{| key := VStr "a"; cb := 1 |}; {| key := VStr "b"; cb := 2 |}]
           (VStr "zzz") 9); [reflexivity|].
  repeat constructor; simpl; (discriminate || lia).
Defined.

(** ** Single-key updates *)

Lemma filter_key_le_one (kv : value) (ls : list IStoreListener) :
  NoDup (key <$> ls) -> List.length (filter (fun i => key i = kv) ls) ≤ 1.
Proof.
  induction ls as [|i ls IH]; [simpl; lia|].
  rewrite fmap_cons. intros Hnd. apply NoDup_cons in Hnd. destruct Hnd as [Hi Hnd].
  rewrite filter_cons. destruct (decide (key i = kv)) as [E|E]; [|apply IH; exact Hnd].
  assert (Hnone : filter (fun i => key i = kv) ls = []).
  { clear IH Hnd. induction ls as [|j ls IH]; [reflexivity|].
    rewrite fmap_cons, not_elem_of_cons in Hi. destruct Hi as [Hne Hi].
    rewrite filter_cons, decide_False by congruence. apply IH. exact Hi. }
  rewrite Hnone. simpl. lia.
Qed.

(** X5: with registrations that do not share a key (which is all a store
    ever has), a single-key [set] invokes at most one listener. *)
Theorem set_key_invokes_at_most_one (w : world) (l : loc) (o o1 : obj)
    (ls : list IStoreListener) (kv : value) (setState : setter)
    (nv : value) (h1 : heap) (t : tree) :
  isRecordKey (AVal kv) = true ->
  _store (this w) = Some l ->
  mem w !! l = Some o ->
  _listeners (this w) = Some ls ->
  distinct_listeners ls ->
  apply_setter setState (mem w) (proto_get o (prop_name kv)) = Some (nv, h1) ->
  h1 !! l = Some o1 ->
  tree_of h1 nv = Some t ->
  ∃ w', set (AVal kv) setState w = Some (This, w')
    ∧ List.length (calls w') ≤ S (List.length (calls w)).
Proof.
  intros Hk Hs Hl Hls [Hd _] Hap Hl1 Ht.
  destruct (set_key_run w l o o1 ls kv setState nv h1 _ t Hk Hs Hl Hls Hap Hl1 Ht (le_n _))
    as (c & k & Hrun & _).
  eexists. rewrite (set_key_dispatch _ _ Hk).
  split; [eapply returns_this; exact Hrun|]. simpl.
  rewrite length_app. destruct (decide _); simpl; [lia|].
  rewrite length_fmap. pose proof (filter_key_le_one kv ls Hd). lia.
Qed.

Lemma set_key_invokes_at_most_one_witness :
  let w := {| mem := [[("x", VNum 1)]];
              this := {| _store := Some 0;
                         _listeners := Some [{| key := VStr "x"; cb := 1 |};
                                             {| key := VStr "y"; cb := 2 |}];
                         _default := None |};
              calls := [] |} in
  ∃ w', set (AVal (VStr "x")) (SValue (VNum 2)) w = Some (This, w')
    ∧ List.length (calls w') ≤ 1.
Proof.
  intros w.
  apply (set_key_invokes_at_most_one w 0 [("x", VNum 1)] [("x", VNum 1)]
           [{| key := VStr "x"; cb := 1 |}; {| key := VStr "y"; cb := 2 |}]
           (VStr "x") (SValue (VNum 2)) (VNum 2) [[("x", VNum 1)]] (TPrim (PNum 2)));
    try reflexivity.
  split; refine (bool_decide_unpack _ _); vm_compute; exact I.
Defined.

(** X6: setting a key other than [__proto__] to a primitive ([undefined],
    [null], a boolean, a string or an integer) it already holds: the first
    call stores it, a second call with the same primitive invokes no
    listener. *)
Theorem set_key_same_primitive_silent (w : world) (l : loc) (o : obj)
    (ls : list IStoreListener) (kv : value) (p : prim) :
  isRecordKey (AVal kv) = true ->
  prop_name kv ≠ "__proto__" ->
  _store (this w) = Some l ->
  mem w !! l = Some o ->
  _listeners (this w) = Some ls ->
  ∃ w1 w2,
    set (AVal kv) (SValue (VPrim p)) w = Some (This, w1)
    ∧ get (AVal kv) w1 = Some (VPrim p, w1)
    ∧ set (AVal kv) (SValue (VPrim p)) w1 = Some (This, w2)
    ∧ calls w2 = calls w1
    ∧ get (AVal kv) w2 = Some (VPrim p, w2).
Proof.
  intros Hk Hnp Hs Hl Hls.
  pose proof (lookup_lt_Some _ _ _ Hl) as Hlt.
  destruct (set_key_run w l o o ls kv (SValue (VPrim p)) (VPrim p) (mem w) 0 (TPrim p)
              Hk Hs Hl Hls eq_refl Hl (scan_prim _ _ _) ltac:(lia))
    as (c & k & Hrun & _ & _ & Hp & _).
  destruct (Hp p eq_refl) as [-> ->]. rewrite app_nil_r in Hrun.
  rewrite (write_prop_set _ _ _ Hnp), proto_get_set_eq in Hrun.
  set (o1 := prop_set o (prop_name kv) (VPrim p)) in *.
  set (w1 := {| mem := <[l := o1]> (mem w); this := this w;
                calls := calls w ++
                  (if decide (VPrim p = proto_get o (prop_name kv)) then []
                   else (fun i => (cb i, VPrim p)) <$> filter (fun i => key i = kv) ls) |}).
  assert (Hl1 : mem w1 !! l = Some o1) by (apply list_lookup_insert_eq; exact Hlt).
  destruct (set_key_run w1 l o1 o1 ls kv (SValue (VPrim p)) (VPrim p) (mem w1) 0 (TPrim p)
              Hk Hs Hl1 Hls eq_refl Hl1 (scan_prim _ _ _) ltac:(lia))
    as (c2 & k2 & Hrun2 & _ & _ & Hp2 & _).
  destruct (Hp2 p eq_refl) as [-> ->]. rewrite app_nil_r in Hrun2.
  assert (Hold : proto_get o1 (prop_name kv) = VPrim p)
    by (unfold o1; apply proto_get_set_eq).
  cbn [mem this calls w1] in Hrun2. rewrite Hold in Hrun2.
  destruct (decide (VPrim p = VPrim p)) as [_|E]; [|congruence].
  rewrite app_nil_r in Hrun2.
  eexists w1, _. rewrite !(set_key_dispatch _ _ Hk).
  split; [eapply returns_this; exact Hrun|].
  split.
  { unfold get, _get. rewrite (store_read_run w1 l o1 kv Hs Hl1), Hold. reflexivity. }
  split; [eapply returns_this; exact Hrun2|]. split; [reflexivity|].
  unfold get, _get. erewrite store_read_run; [| exact Hs |].
  2:{ simpl. apply list_lookup_insert_eq. rewrite length_insert. exact Hlt. }
  rewrite proto_get_write_eq by exact Hnp. reflexivity.
Qed.

Lemma set_key_same_primitive_silent_witness :
  ∃ w1 w2,
    set (AVal (VStr "x")) (SValue (VNum 5))
      {| mem := [[]];
         this := {| _store := Some 0;
                    _listeners := Some [{| key := VStr "x"; cb := 1 |}];
                    _default := None |};
         calls := [] |} = Some (This, w1)
    ∧ get (AVal (VStr "x")) w1 = Some (VNum 5, w1)
    ∧ set (AVal (VStr "x")) (SValue (VNum 5)) w1 = Some (This, w2)
    ∧ calls w2 = calls w1
    ∧ get (AVal (VStr "x")) w2 = Some (VNum 5, w2).
Proof.
  apply (set_key_same_primitive_silent _ 0 [] [{| key := VStr "x"; cb := 1 |}]
           (VStr "x") (PNum 5)); try reflexivity. discriminate.
Defined.

(** For the key [__proto__] the assignment of a primitive is ignored, so
    the same [set] notifies every time. *)
Example set_proto_primitive_run :
  let w := {| mem := [[]];
              this := {| _store := Some 0;
                         _listeners := Some [{| key := VStr "__proto__"; cb := 1 |}];
                         _default := None |};
              calls := [] |} in
  invoked (set (AVal (VStr "__proto__")) (SValue (VNum 5)) ;;;
           set (AVal (VStr "__proto__")) (SValue (VNum 5))) w = Some [1; 1]
  ∧ (w' ← exec (set (AVal (VStr "__proto__")) (SValue (VNum 5))) w;
     fst <$> get (AVal (VStr "__proto__")) w') = Some (VBuiltin Object_prototype).
Proof. split; reflexivity. Qed.

Lemma footprint_bound (h : heap) (v : value) (t : tree) (l : loc) :
  tree_of h v = Some t -> l ∈ footprint h v -> l < List.length h.
Proof. apply reach_bound. Qed.

(** X7: the store keeps a copy, never the record it is given.  Setting a
    key other than [__proto__] to a record invokes the listeners of the key
    unless the key already read as that very record; setting it to the same
    record again invokes them in every case, because the key now holds the
    copy. *)
Theorem set_key_same_record_notifies_again (w : world) (l : loc) (o : obj)
    (ls : list IStoreListener) (kv : value) (r : loc) (t : tree) :
  isRecordKey (AVal kv) = true ->
  prop_name kv ≠ "__proto__" ->
  _store (this w) = Some l ->
  mem w !! l = Some o ->
  _listeners (this w) = Some ls ->
  tree_of (mem w) (VRef r) = Some t ->
  l ∉ footprint (mem w) (VRef r) ->
  ∃ w1 w2 c1 c2,
    set (AVal kv) (SValue (VRef r)) w = Some (This, w1)
    ∧ get (AVal kv) w1 = Some (c1, w1)
    ∧ calls w1 = calls w ++
        (if decide (VRef r = proto_get o (prop_name kv)) then []
         else (fun i => (cb i, c1)) <$> filter (fun i => key i = kv) ls)
    ∧ c1 ≠ VRef r
    ∧ set (AVal kv) (SValue (VRef r)) w1 = Some (This, w2)
    ∧ get (AVal kv) w2 = Some (c2, w2)
    ∧ calls w2 = calls w1 ++ ((fun i => (cb i, c2)) <$> filter (fun i => key i = kv) ls).
Proof.
  intros Hk Hnp Hs Hl Hls Ht Hnot.
  pose proof (lookup_lt_Some _ _ _ Hl) as Hlt.
  destruct (set_key_run w l o o ls kv (SValue (VRef r)) (VRef r) (mem w) _ t
              Hk Hs Hl Hls eq_refl Hl Ht (le_n _))
    as (c1 & k1 & Hrun & Hsc & Hfr & _ & _).
  destruct (scan_ref_obj _ _ _ _ Ht) as (or & fs & Hor & _ & ->).
  destruct (scan_obj_ref _ _ _ _ Hsc) as [s1 ->]. simpl in Hfr.
  pose proof (lookup_lt_Some _ _ _ Hor) as Hrlt.
  rewrite (write_prop_set _ _ _ Hnp), proto_get_set_eq in Hrun.
  set (o1 := prop_set o (prop_name kv) (VRef s1)) in *.
  set (h1 := <[l := o1]> (mem w ++ k1)) in *.
  match type of Hrun with _ = Some (_, ?x) => set (w1 := x) in * end.
  assert (Hl1 : mem w1 !! l = Some o1).
  { simpl. unfold h1. apply list_lookup_insert_eq. rewrite length_app. lia. }
  assert (Hold : proto_get o1 (prop_name kv) = VRef s1)
    by (unfold o1; apply proto_get_set_eq).
  assert (Ht1 : tree_of (mem w1) (VRef r) = Some (TObj fs)).
  { eapply scan_tree_of.
    - eapply scan_frame; [exact Ht | reflexivity |].
      intros l' Hl'. simpl. unfold h1.
      pose proof (footprint_bound _ _ _ _ Ht Hl') as Hb.
      rewrite list_lookup_insert_ne by (intros ->; exact (Hnot Hl')).
      apply lookup_app_l. exact Hb.
    - simpl. unfold h1. rewrite length_insert, length_app. lia. }
  destruct (set_key_run w1 l o1 o1 ls kv (SValue (VRef r)) (VRef r) (mem w1) _ _
              Hk Hs Hl1 Hls eq_refl Hl1 Ht1 (le_n _))
    as (c2 & k2 & Hrun2 & _).
  rewrite Hold in Hrun2.
  rewrite decide_False in Hrun2 by (intros E; inversion E; lia).
  rewrite (write_prop_set _ _ _ Hnp), proto_get_set_eq in Hrun2.
  eexists w1, _, (VRef s1), c2. rewrite !(set_key_dispatch _ _ Hk).
  split; [eapply returns_this; exact Hrun|].
  split.
  { unfold get, _get. rewrite (store_read_run w1 l o1 kv Hs Hl1), Hold. reflexivity. }
  split; [reflexivity|].
  split; [intros E; inversion E; lia|].
  split; [eapply returns_this; exact Hrun2|].
  split; [|reflexivity].
  unfold get, _get. erewrite store_read_run; [| exact Hs |].
  2:{ simpl. apply list_lookup_insert_eq. rewrite length_app.
      apply lookup_lt_Some in Hl1. simpl in Hl1. lia. }
  rewrite proto_get_set_eq. reflexivity.
Qed.

Lemma set_key_same_record_notifies_again_witness :
  let w := {| mem := [[]; [("n", VNum 1)]];
              this := {| _store := Some 0;
                         _listeners := Some [{| key := VStr "x"; cb := 1 |}];
                         _default := None |};
              calls := [] |} in
  ∃ w1 w2 c1 c2,
    set (AVal (VStr "x")) (SValue (VRef 1)) w = Some (This, w1)
    ∧ get (AVal (VStr "x")) w1 = Some (c1, w1)
    ∧ calls w1 = [(1, c1)]
    ∧ c1 ≠ VRef 1
    ∧ set (AVal (VStr "x")) (SValue (VRef 1)) w1 = Some (This, w2)
    ∧ get (AVal (VStr "x")) w2 = Some (c2, w2)
    ∧ calls w2 = calls w1 ++ [(1, c2)].
Proof.
  intros w.
  apply (set_key_same_record_notifies_again w 0 [] [{| key := VStr "x"; cb := 1 |}]
           (VStr "x") 1 (TObj [("n", TPrim (PNum 1))])); try reflexivity.
  - discriminate.
  - vm_compute. intros H. inversion H as [|? ? ? H']; subst. inversion H'.
Defined.

(** When the key already holds the very record that is passed, the first
    [set] invokes nothing and the second one does. *)
Example set_key_held_record_run :
  let w := {| mem := [[("x", VRef 1)]; [("n", VNum 1)]];
              this := {| _store := Some 0;
                         _listeners := Some [{| key := VStr "x"; cb := 1 |}];
                         _default := None |};
              calls := [] |} in
  invoked (set (AVal (VStr "x")) (SValue (VRef 1))) w = Some []
  ∧ invoked (set (AVal (VStr "x")) (SValue (VRef 1)) ;;;
             set (AVal (VStr "x")) (SValue (VRef 1))) w = Some [1].
Proof. split; reflexivity. Qed.

(** X8: [set(key, value)] with a literal that is no function, for a key
    other than [__proto__], writes the live record and new records only.
    Every other name reads as before, no other record that existed is
    changed, and the stored value shares nothing with the value passed in:
    whatever is written afterwards into any record that existed before the
    call, the stored value still reads as the same tree. *)
Theorem set_key_literal_isolated (w : world) (l : loc) (o : obj)
    (ls : list IStoreListener) (kv v : value) (t : tree) :
  isRecordKey (AVal kv) = true ->
  prop_name kv ≠ "__proto__" ->
  _store (this w) = Some l ->
  mem w !! l = Some o ->
  _listeners (this w) = Some ls ->
  tree_of (mem w) v = Some t ->
  ∃ w' c,
    set (AVal kv) (SValue v) w = Some (This, w')
    ∧ get (AVal kv) w' = Some (c, w')
    ∧ tree_of (mem w') c = Some t
    ∧ (∀ k', prop_name k' ≠ prop_name kv ->
         ∃ x, get (AVal k') w = Some (x, w) ∧ get (AVal k') w' = Some (x, w'))
    ∧ (∀ l' x, l' ≠ l -> mem w !! l' = Some x -> mem w' !! l' = Some x)
    ∧ (∀ l' x, l' < List.length (mem w) ->
         tree_of (<[l' := x]> (mem w')) c = Some t).
Proof.
  intros Hk Hnp Hs Hl Hls Ht.
  pose proof (lookup_lt_Some _ _ _ Hl) as Hlt.
  destruct (set_key_run w l o o ls kv (SValue v) v (mem w) _ t
              Hk Hs Hl Hls (apply_setter_structural _ _ _ _ _ _ Ht) Hl Ht (le_n _))
    as (c & k & Hrun & Hsc & Hfr & _ & Hcl).
  eexists _, c. rewrite (set_key_dispatch _ _ Hk).
  split; [eapply returns_this; exact Hrun|]. simpl.
  assert (Hl' : <[l := write o (prop_name kv) c]> (mem w ++ k) !! l
                = Some (write o (prop_name kv) c)).
  { apply list_lookup_insert_eq. rewrite length_app. lia. }
  split.
  { unfold _get. erewrite store_read_run; [| exact Hs | exact Hl'].
    rewrite proto_get_write_eq by exact Hnp. reflexivity. }
  split.
  { unfold tree_of. eapply scan_insert_below; try eassumption.
    rewrite length_insert, length_app. lia. }
  split.
  { intros k' Hne. exists (proto_get o (prop_name k')). unfold _get. split.
    - apply (store_read_run w l o k' Hs Hl).
    - erewrite store_read_run; [| exact Hs | exact Hl'].
      rewrite proto_get_write_ne by exact Hne. reflexivity. }
  split.
  { intros l' x Hne Hx. rewrite list_lookup_insert_ne by congruence.
    apply lookup_app_l_Some. exact Hx. }
  intros l' x Hl'lt. unfold tree_of.
  eapply (scan_insert_below (List.length (mem w)) _ (List.length (mem w))).
  - eapply (scan_insert_below (List.length (mem w)) (List.length (mem w))
              (List.length (mem w))); [exact Hsc | lia | exact Hcl | exact Hfr | exact Hlt].
  - rewrite !length_insert, length_app. lia.
  - apply closed_from_insert_below; assumption.
  - exact Hfr.
  - exact Hl'lt.
Qed.

Lemma set_key_literal_isolated_witness :
  let w := {| mem := [[("y", VNum 7)]; [("n", VNum 1)]];
              this := {| _store := Some 0; _listeners := Some []; _default := None |};
              calls := [] |} in
  ∃ w' c,
    set (AVal (VStr "x")) (SValue (VRef 1)) w = Some (This, w')
    ∧ get (AVal (VStr "x")) w' = Some (c, w')
    ∧ get (AVal (VStr "y")) w' = Some (VNum 7, w')
    ∧ tree_of (<[1 := [("n", VNum 2)]]> (mem w')) c = Some (TObj [("n", TPrim (PNum 1))]).
Proof.
  intros w.
  destruct (set_key_literal_isolated w 0 [("y", VNum 7)] [] (VStr "x") (VRef 1)
              (TObj [("n", TPrim (PNum 1))]))
    as (w' & c & H1 & H2 & _ & H3 & _ & H4); try reflexivity; [discriminate|].
  exists w', c. split; [exact H1|]. split; [exact H2|]. split.
  - destruct (H3 (VStr "y")) as (x & Hx & Hx'); [discriminate|].
    inversion Hx; subst x. exact Hx'.
  - apply H4. simpl. lia.
Defined.

(** ** Clearing *)

(** X9: [clearStore()] puts a new empty record in place of the live one
    (the old record is left as it was), so a following [set(key, value)]
    with any value other than [undefined] invokes the listeners of [key],
    whatever the live record held before. *)
Theorem clearStore_then_set_notifies (w : world) (ls : list IStoreListener)
    (kv v : value) (t : tree) :
  isRecordKey (AVal kv) = true ->
  _listeners (this w) = Some ls ->
  tree_of (mem w) v = Some t ->
  v ≠ VUndef ->
  ∃ w' c,
    (clearStore ;;; set (AVal kv) (SValue v)) w = Some (This, w')
    ∧ get (AVal kv) w' = Some (c, w')
    ∧ calls w' = calls w ++ ((fun i => (cb i, c)) <$> filter (fun i => key i = kv) ls)
    ∧ (∀ l x, mem w !! l = Some x -> mem w' !! l = Some x).
Proof.
  intros Hk Hls Ht Hv.
  set (w1 := {| mem := mem w ++ [[]];
                this := {| _store := Some (List.length (mem w));
                           _listeners := _listeners (this w);
                           _default := _default (this w) |};
                calls := calls w |}).
  assert (Hl1 : mem w1 !! List.length (mem w) = Some [])
    by (apply list_lookup_middle; reflexivity).
  assert (Hold : proto_get [] (prop_name kv) = inherited (prop_name kv))
    by (apply proto_get_inherited, not_elem_of_nil).
  assert (Hnew : v ≠ proto_get [] (prop_name kv)).
  { rewrite Hold. destruct (inherited_cases (prop_name kv)) as [E|[b E]]; rewrite E.
    - exact Hv.
    - eapply scan_not_builtin. exact Ht. }
  destruct (set_key_run w1 (List.length (mem w)) [] [] ls kv (SValue v) v (mem w1)
              (List.length (mem w)) t Hk eq_refl Hl1 Hls
              (apply_setter_structural _ _ _ _ _ _ Ht) Hl1)
    as (c & k & Hrun & _).
  { eapply scan_app; [exact Ht | lia]. }
  { simpl. rewrite length_app. lia. }
  rewrite decide_False in Hrun by exact Hnew.
  eexists _, _. split.
  { erewrite bind_run; [|apply clearStore_run]. fold w1.
    rewrite (set_key_dispatch _ _ Hk). eapply returns_this. exact Hrun. }
  simpl. split.
  { unfold _get. erewrite store_read_run; [reflexivity | reflexivity |].
    simpl. apply list_lookup_insert_eq. rewrite !length_app. simpl. lia. }
  split; [reflexivity|].
  intros l x Hx. pose proof (lookup_lt_Some _ _ _ Hx).
  rewrite list_lookup_insert_ne by lia.
  apply lookup_app_l_Some, lookup_app_l_Some. exact Hx.
Qed.

Lemma clearStore_then_set_notifies_witness :
  let w := {| mem := [[("x", VNum 5)]];
              this := {| _store := Some 0;
                         _listeners := Some [{| key := VStr "x"; cb := 1 |}];
                         _default := None |};
              calls := [] |} in
  ∃ w' c,
    (clearStore ;;; set (AVal (VStr "x")) (SValue (VNum 5))) w = Some (This, w')
    ∧ get (AVal (VStr "x")) w' = Some (c, w')
    ∧ calls w' = [(1, c)].
Proof.
  intros w.
  destruct (clearStore_then_set_notifies w [{| key := VStr "x"; cb := 1 |}]
              (VStr "x") (VNum 5) (TPrim (PNum 5)))
    as (w' & c & H1 & H2 & H3 & _); try reflexivity; [discriminate|].
  exists w', c. auto.
Defined.

(** X10: after [clearListeners()] a single-key [set] invokes nothing,
    whether the value changes or not. *)
Theorem clearListeners_then_set_silent (w : world) (l : loc) (o o1 : obj)
    (kv : value) (setState : setter) (nv : value) (h1 : heap) (t : tree) :
  isRecordKey (AVal kv) = true ->
  _store (this w) = Some l ->
  mem w !! l = Some o ->
  apply_setter setState (mem w) (proto_get o (prop_name kv)) = Some (nv, h1) ->
  h1 !! l = Some o1 ->
  tree_of h1 nv = Some t ->
  ∃ w', (clearListeners ;;; set (AVal kv) setState) w = Some (This, w')
    ∧ calls w' = calls w
    ∧ _listeners (this w') = Some [].
Proof.
  intros Hk Hs Hl Hap Hl1 Ht.
  set (w1 := {| mem := mem w;
                this := {| _store := _store (this w); _listeners := Some [];
                           _default := _default (this w) |};
                calls := calls w |}).
  destruct (set_key_run w1 l o o1 [] kv setState nv h1 _ t Hk Hs Hl eq_refl Hap Hl1 Ht
              (le_n _)) as (c & k & Hrun & _).
  eexists. split.
  { erewrite bind_run; [|reflexivity]. rewrite (set_key_dispatch _ _ Hk).
    eapply returns_this. exact Hrun. }
  simpl. split; [|reflexivity].
  destruct (decide _); simpl; apply app_nil_r.
Qed.

Lemma clearListeners_then_set_silent_witness :
  let w := {| mem := [[("x", VNum 5)]];
              this := {| _store := Some 0;
                         _listeners := Some [{| key := VStr "x"; cb := 1 |}];
                         _default := None |};
              calls := [] |} in
  ∃ w', (clearListeners ;;; set (AVal (VStr "x")) (SValue (VNum 6))) w = Some (This, w')
    ∧ calls w' = []
    ∧ _listeners (this w') = Some [].
Proof.
  intros w.
  apply (clearListeners_then_set_silent w 0 [("x", VNum 5)] [("x", VNum 5)]
           (VStr "x") (SValue (VNum 6)) (VNum 6) (mem w) (TPrim (PNum 6)));
    reflexivity.
Defined.

(** ** [destroy] *)

Lemma prop_get_delete_ne (o : obj) (k k0 : string) :
  k0 ≠ k -> prop_get (prop_delete o k) k0 = prop_get o k0.
Proof.
  intros Hne. induction o as [|[k' v'] o IH]; simpl; [reflexivity|].
  destruct (decide (k' = k)) as [->|Hk].
  - rewrite decide_False by congruence. exact IH.
  - simpl. destruct (decide (k' = k0)); [reflexivity | exact IH].
Qed.

Lemma proto_get_delete_ne (o : obj) (k k0 : string) :
  k0 ≠ k -> proto_get (prop_delete o k) k0 = proto_get o k0.
Proof.
  intros Hne. unfold proto_get.
  assert (E : has_prop (prop_delete o k) k0 = has_prop o k0).
  { unfold has_prop. apply bool_decide_ext. rewrite prop_delete_keys. tauto. }
  rewrite E, prop_get_delete_ne by exact Hne. reflexivity.
Qed.

(** X11: [destroy('record', key)] removes that one field: every other field
    reads as before, the registrations stay, and no listener is invoked,
    not even one registered on [key]. *)
Theorem destroy_record_frame (w : world) (l : loc) (o : obj) (k : value) :
  _store (this w) = Some l ->
  mem w !! l = Some o ->
  ∃ w', destroy record k w = Some (true, w')
    ∧ (∀ k', prop_name k' ≠ prop_name k ->
         get (AVal k') w' = Some (proto_get o (prop_name k'), w')
         ∧ get (AVal k') w = Some (proto_get o (prop_name k'), w))
    ∧ (∀ l' x, l' ≠ l -> mem w !! l' = Some x -> mem w' !! l' = Some x)
    ∧ this w' = this w
    ∧ calls w' = calls w.
Proof.
  intros Hs Hl. unfold destroy. mrun.
  eexists. split; [reflexivity|]. simpl.
  split; [|split; [|auto]].
  - intros k' Hne. unfold _get. split.
    + erewrite store_read_run; [| exact Hs |].
      2:{ simpl. apply list_lookup_insert_eq. eapply lookup_lt_Some. exact Hl. }
      rewrite proto_get_delete_ne by exact Hne. reflexivity.
    + apply (store_read_run w l o k' Hs Hl).
  - intros l' x Hne Hx. rewrite list_lookup_insert_ne by congruence. exact Hx.
Qed.

Lemma destroy_record_frame_witness :
  let w := {| mem := [[("x", VNum 5); ("y", VNum 6)]];
              this := {| _store := Some 0;
                         _listeners := Some [{| key := VStr "x"; cb := 1 |}];
                         _default := None |};
              calls := [] |} in
  ∃ w', destroy record (VStr "x") w = Some (true, w')
    ∧ get (AVal (VStr "y")) w' = Some (VNum 6, w')
    ∧ calls w' = [].
Proof.
  intros w.
  destruct (destroy_record_frame w 0 [("x", VNum 5); ("y", VNum 6)] (VStr "x"))
    as (w' & H1 & H2 & _ & _ & H3); try reflexivity.
  exists w'. split; [exact H1|]. split; [|exact H3].
  apply (H2 (VStr "y")). discriminate.
Defined.

(** X12: [destroy('store')] returns [true] and sets the three fields to
    [null]; the heap and the call log are as before.  Afterwards [getAll()]
    returns [null] and every method that reads the live record or the
    registrations throws: [get(key)], single-key [set],
    [destroy('record', key)], [subscribe] and [unsubscribe]. *)
Theorem destroy_store_terminal (w : world) :
  ∃ w', destroy store_ (VUndef) w = Some (true, w')
    ∧ this w' = {| _store := None; _listeners := None; _default := None |}
    ∧ mem w' = mem w ∧ calls w' = calls w
    ∧ getAll w' = Some (None, w')
    ∧ (∀ k, get (AVal k) w' = None)
    ∧ (∀ k setState, isRecordKey (AVal k) = true -> set (AVal k) setState w' = None)
    ∧ (∀ k, destroy record k w' = None)
    ∧ (∀ k c, subscribe k c w' = None)
    ∧ (∀ k c, unsubscribe k c w' = None).
Proof.
  eexists. split; [reflexivity|]. split; [reflexivity|].
  split; [reflexivity|]. split; [reflexivity|]. split; [reflexivity|].
  split; [reflexivity|]. split; [|repeat split].
  intros k setState Hk. rewrite (set_key_dispatch _ _ Hk). apply throws_this.
  unfold _set. rewrite Hk. reflexivity.
Qed.

(** X13: a destroyed store comes back to life in part: [restoreDefault()]
    does not throw and leaves a new empty live record, in which every name
    reads as in an empty record (the snapshot is [null], so an empty record
    is restored); no listener is invoked.  The registrations and the
    snapshot stay [null], so [subscribe] still throws. *)
Theorem restoreDefault_after_destroy (w : world) :
  ∃ w' s,
    (destroy store_ VUndef ;;; restoreDefault None) w = Some (This, w')
    ∧ getAll w' = Some (Some s, w')
    ∧ mem w' !! s = Some []
    ∧ (∀ k, get (AVal k) w' = Some (inherited (prop_name k), w'))
    ∧ calls w' = calls w
    ∧ _listeners (this w') = None
    ∧ _default (this w') = None
    ∧ (∀ k c, subscribe k c w' = None).
Proof.
  eexists _, (List.length (mem w)). split.
  { erewrite bind_run; [|reflexivity]. unfold restoreDefault.
    erewrite bind_run; [|apply clearStore_run]. simpl. eapply returns_this.
    erewrite bind_run; [|reflexivity]. simpl.
    erewrite bind_run; [|reflexivity].
    unfold set1, set. simpl. eapply returns_this.
    erewrite bind_run.
    2:{ unfold load. simpl. rewrite list_lookup_middle by (rewrite length_app; simpl; lia).
        reflexivity. }
    reflexivity. }
  simpl. split; [reflexivity|].
  assert (Hl : ((mem w ++ [[]]) ++ [[]]) !! List.length (mem w) = Some []).
  { apply lookup_app_l_Some. apply list_lookup_middle. reflexivity. }
  split; [exact Hl|]. split.
  { intros k.
    rewrite <- (proto_get_inherited [] (prop_name k) (not_elem_of_nil _)).
    apply (store_read_run
             {| mem := (mem w ++ [[]]) ++ [[]];
                this := {| _store := Some (List.length (mem w));
                           _listeners := None; _default := None |};
                calls := calls w |} (List.length (mem w)) [] k eq_refl Hl). }
  repeat split.
Qed.

(** ** Mass update and multi-key read *)

Lemma call_non_function (v x : value) (w : world) :
  isCallBack (SValue v) = false -> call (SValue v) x w = None.
Proof.
  destruct v as [p|l|b]; [reflexivity | reflexivity |].
  destruct b; simpl; try discriminate. reflexivity.
Qed.

(** X14: a mass update whose second argument is not a function throws, for
    every key array and every state of the store: the value is called as a
    function before anything is written. *)
Theorem set_mass_non_function_throws (w : world) (ks : list value) (v : value) :
  isCallBack (SValue v) = false ->
  set (AArray ks) (SValue v) w = None.
Proof.
  intros Hv. rewrite set_array_dispatch. apply throws_this.
  unfold _set. unfold bind at 1. unfold bind at 1.
  destruct (get (AArray ks) w) as [[data w1]|]; [|reflexivity].
  unfold bind at 1. destruct (spread_store w1) as [[base w2]|]; [|reflexivity].
  unfold bind at 1. rewrite (call_non_function v data w2 Hv). reflexivity.
Qed.

Lemma set_mass_non_function_throws_witness :
  set (AArray [VStr "a"]) (SValue (VRef 1))
    {| mem := [[("a", VNum 1)]; [("a", VNum 2)]];
       this := {| _store := Some 0;
                  _listeners := Some [{| key := VStr "a"; cb := 1 |}];
                  _default := None |};
       calls := [] |} = None.
Proof. apply set_mass_non_function_throws. reflexivity. Defined.

Lemma notified_no_keys (ls : list IStoreListener) (o : obj) : notified [] ls o = [].
Proof.
  induction ls as [|i ls IH]; [reflexivity|].
  rewrite notified_cons, IH. rewrite bool_decide_eq_false_2; [reflexivity|].
  apply not_elem_of_nil.
Qed.

(** X15: a mass update with an empty key array invokes no listener; the
    live state still becomes a copy of the old record overlaid with what
    the callback returns. *)
Theorem set_mass_no_keys_silent (w : world) (l : loc) (o : obj)
    (ls : list IStoreListener) (f : jsfun) (r : value)
    (h2 : heap) (ext : obj) (t : tree) :
  _store (this w) = Some l ->
  mem w !! l = Some o ->
  _listeners (this w) = Some ls ->
  f (mem w ++ [[]]) (VRef (List.length (mem w))) = (r, h2) ->
  spread_of h2 r = Some ext ->
  tree_of (h2 ++ [spread_over o ext]) (VRef (List.length h2)) = Some t ->
  ∃ w' s',
    set (AArray []) (SFun f) w = Some (This, w')
    ∧ getAll w' = Some (Some s', w')
    ∧ tree_of (mem w') (VRef s') = Some t
    ∧ calls w' = calls w.
Proof.
  intros Hs Hl Hls Hf Hext Ht.
  assert (Hlen3 : List.length (h2 ++ [spread_over o ext]) = S (List.length h2))
    by (rewrite length_app; simpl; lia).
  unfold tree_of in Ht. rewrite Hlen3 in Ht.
  destruct (set_mass_run w l o ls [] f r h2 ext _ t Hs Hl Hls Hf Hext Ht (le_n _))
    as (s' & k & o' & Hrun & Ho' & Hsc & Hfr & Hcl).
  eexists _, s'. rewrite set_array_dispatch.
  split; [eapply returns_this; exact Hrun|]. simpl. split; [reflexivity|].
  split; [eapply scan_tree_of; [exact Hsc | rewrite length_app, Hlen3; lia]|].
  rewrite notified_no_keys. apply app_nil_r.
Qed.

Lemma set_mass_no_keys_silent_witness :
  let w := {| mem := [[("a", VNum 1)]];
              this := {| _store := Some 0;
                         _listeners := Some [{| key := VStr "a"; cb := 3 |}];
                         _default := None |};
              calls := [] |} in
  let f : jsfun := fun h v => (VRef (List.length h), h ++ [[("a", VNum 2)]]) in
  ∃ w' s',
    set (AArray []) (SFun f) w = Some (This, w')
    ∧ getAll w' = Some (Some s', w')
    ∧ tree_of (mem w') (VRef s') = Some (TObj [("a", TPrim (PNum 2))])
    ∧ calls w' = [].
Proof.
  intros w f.
  apply (set_mass_no_keys_silent w 0 [("a", VNum 1)]
           [{| key := VStr "a"; cb := 3 |}] f (VRef 2)
           [[("a", VNum 1)]; []; [("a", VNum 2)]] [("a", VNum 2)]
           (TObj [("a", TPrim (PNum 2))])); reflexivity.
Defined.






(** ** The default snapshot *)

Lemma record_calls_no_listeners (o data : obj) : record_calls [] o data = [].
Proof.
  unfold record_calls. induction data as [|kv data IH]; [reflexivity|].
  cbn [flat_map]. rewrite IH. destruct (decide _); reflexivity.
Qed.

Lemma configureDefault_run (w : world) (D : loc) (oD : obj) (fs : list (string * tree)) :
  mem w !! D = Some oD ->
  tree_of (mem w) (VRef D) = Some (TObj fs) ->
  ∃ d1 k od,
    configureDefault D w =
      Some (This, {| mem := mem w ++ k;
                     this := {| _store := _store (this w);
                                _listeners := _listeners (this w);
                                _default := Some d1 |};
                     calls := calls w |})
    ∧ List.length (mem w) ≤ d1
    ∧ (mem w ++ k) !! d1 = Some od
    ∧ od.*1 = oD.*1
    ∧ scan (List.length (mem w)) (mem w ++ k) (VRef d1) = Some (TObj fs)
    ∧ closed_from (List.length (mem w)) (mem w ++ k).
Proof.
  intros HD Ht.
  destruct (scan_ref_obj _ _ _ _ Ht) as (o0 & fs0 & Ho0 & HmD & E).
  rewrite HD in Ho0. inversion Ho0; subst o0. inversion E; subst fs0. clear Ho0 E.
  destruct (clone_run _ w (VRef D) _ Ht (le_n _)) as (c & k & Hc & Hsc & Hfr & _ & Hcl).
  destruct (scan_obj_ref _ _ _ _ Hsc) as [d1 ->]. simpl in Hfr.
  destruct (scan_ref_obj _ _ _ _ Hsc) as (od & fs1 & Hod & Hmd & E).
  inversion E; subst fs1; clear E.
  exists d1, k, od. split.
  { unfold configureDefault. eapply returns_this.
    erewrite bind_run; [|exact Hc]. reflexivity. }
  split; [exact Hfr|]. split; [exact Hod|]. split; [|split; assumption].
  rewrite <- (scan_props_keys _ _ _ _ Hmd), (scan_props_keys _ _ _ _ HmD). reflexivity.
Qed.

(** X17: [configureDefault(defaults)] stores a copy and touches nothing
    else: the live record, the registrations and the call log are as
    before, no existing record is changed, and the snapshot reads as
    [defaults] whatever is written afterwards into [defaults] or into any
    other record that existed. *)
Theorem configureDefault_snapshot (w : world) (D : loc) (oD : obj) (t : tree) :
  mem w !! D = Some oD ->
  tree_of (mem w) (VRef D) = Some t ->
  ∃ w' d1,
    configureDefault D w = Some (This, w')
    ∧ _default (this w') = Some d1
    ∧ _store (this w') = _store (this w)
    ∧ _listeners (this w') = _listeners (this w)
    ∧ calls w' = calls w
    ∧ (∀ l x, mem w !! l = Some x -> mem w' !! l = Some x)
    ∧ tree_of (mem w') (VRef d1) = Some t
    ∧ (∀ l x, l < List.length (mem w) ->
         tree_of (<[l := x]> (mem w')) (VRef d1) = Some t).
Proof.
  intros HD Ht.
  destruct (scan_ref_obj _ _ _ _ Ht) as (o0 & fs & _ & _ & ->).
  destruct (configureDefault_run w D oD fs HD Ht)
    as (d1 & k & od & Hrun & Hge & Hod & _ & Hsc & Hcl).
  eexists _, d1. split; [exact Hrun|]. simpl.
  split; [reflexivity|]. split; [reflexivity|]. split; [reflexivity|].
  split; [reflexivity|].
  split; [intros l x Hx; apply lookup_app_l_Some; exact Hx|].
  split; [eapply scan_tree_of; [exact Hsc | rewrite length_app; lia]|].
  intros l x Hl. unfold tree_of.
  eapply (scan_insert_below (List.length (mem w)) _ (List.length (mem w)));
    [exact Hsc | rewrite length_insert, length_app; lia | exact Hcl | exact Hge | exact Hl].
Qed.

Lemma configureDefault_snapshot_witness :
  let w := {| mem := [[]; [("a", VNum 1)]];
              this := {| _store := Some 0; _listeners := Some []; _default := None |};
              calls := [] |} in
  ∃ w' d1,
    configureDefault 1 w = Some (This, w')
    ∧ _default (this w') = Some d1
    ∧ tree_of (<[1 := [("a", VNum 2)]]> (mem w')) (VRef d1)
      = Some (TObj [("a", TPrim (PNum 1))]).
Proof.
  intros w.
  destruct (configureDefault_snapshot w 1 [("a", VNum 1)] (TObj [("a", TPrim (PNum 1))]))
    as (w' & d1 & H1 & H2 & _ & _ & _ & _ & _ & H3); try reflexivity.
  exists w', d1. split; [exact H1|]. split; [exact H2|]. apply H3. simpl. lia.
Defined.

(** X18: for defaults made of primitives and nested records, without a
    field named [__proto__], [new Store(defaults)] gives a store without
    registrations whose live state and default snapshot are two separate
    copies of [defaults]: the snapshot reads as the same tree as [defaults],
    the live state has the same fields in the order [Object.keys] lists
    them, they are different records, neither is [defaults] itself, no
    record that existed is changed and no listener is invoked. *)
Theorem constructor_with_defaults (w : world) (d : loc) (od : obj)
    (fs : list (string * tree)) :
  mem w !! d = Some od ->
  NoDup od.*1 ->
  "__proto__" ∉ od.*1 ->
  tree_of (mem w) (VRef d) = Some (TObj fs) ->
  ∃ w' s1 d1,
    constructor (Some d) w = Some (tt, w')
    ∧ this w' = {| _store := Some s1; _listeners := Some []; _default := Some d1 |}
    ∧ tree_of (mem w') (VRef s1) = Some (TObj (enum_fields fs))
    ∧ enum_fields fs ≡ₚ fs
    ∧ tree_of (mem w') (VRef d1) = Some (TObj fs)
    ∧ s1 ≠ d1 ∧ s1 ≠ d ∧ d1 ≠ d
    ∧ calls w' = calls w
    ∧ (∀ l x, mem w !! l = Some x -> mem w' !! l = Some x).
Proof.
  intros Hd Hnd Hnp Ht.
  pose proof (lookup_lt_Some _ _ _ Hd) as Hdlt.
  assert (Hndf : NoDup fs.*1).
  { destruct (scan_ref_obj _ _ _ _ Ht) as (o0 & fs0 & Ho0 & Hm0 & E0).
    rewrite Hd in Ho0. inversion Ho0; subst o0. inversion E0; subst fs0.
    rewrite (scan_props_keys _ _ _ _ Hm0). exact Hnd. }
  set (wA := {| mem := (mem w ++ [[]]) ++ [[]];
                this := {| _store := Some (List.length (mem w)); _listeners := Some [];
                           _default := Some (List.length (mem w ++ [[]])) |};
                calls := calls w |}).
  assert (HlenA : List.length (mem wA) = S (S (List.length (mem w))))
    by (simpl; rewrite !length_app; simpl; lia).
  assert (HdA : mem wA !! d = Some od)
    by (apply lookup_app_l_Some, lookup_app_l_Some; exact Hd).
  assert (HtA : tree_of (mem wA) (VRef d) = Some (TObj fs))
    by (apply tree_of_app, tree_of_app; exact Ht).
  destruct (configureDefault_run wA d od fs HdA HtA)
    as (d1 & k & od1 & HrunB & Hge & Hod1 & Hkeys & Hsc & Hcl).
  match type of HrunB with _ = Some (_, ?x) => set (wB := x) in * end.
  assert (HlenB : List.length (mem wA) ≤ List.length (mem wB))
    by (simpl; rewrite !length_app; lia).
  destruct (restoreDefault_run wB None d1 od1 [] fs)
    as (hc' & o' & HrunC & Hag & Hl & _ & _ & Ht').
  { right. split; reflexivity. }
  { reflexivity. }
  { exact Hod1. }
  { rewrite Hkeys. exact Hnd. }
  { rewrite Hkeys. exact Hnp. }
  { eapply scan_tree_of; [exact Hsc | exact HlenB]. }
  rewrite record_calls_no_listeners, app_nil_r in HrunC.
  pose proof (lookup_lt_Some _ _ _ Hod1) as Hd1lt.
  eexists _, (List.length (mem wB)), d1. split.
  { unfold constructor.
    erewrite bind_run; [|reflexivity]. erewrite bind_run; [|reflexivity].
    erewrite bind_run; [|reflexivity].
    erewrite bind_run; [|exact HrunB]. cbn [on].
    erewrite bind_run; [|exact HrunC]. reflexivity. }
  cbn [mem this calls]. split; [reflexivity|]. split; [exact Ht'|].
  split; [apply enum_fields_perm; exact Hndf|].
  split.
  { eapply scan_tree_of; [eapply scan_agree; [exact Hsc | reflexivity |]|].
    - intros l' Hl'. apply Hag. exact Hl'.
    - pose proof (lookup_lt_Some _ _ _ Hl) as Hllt. lia. }
  assert (Hd1B : d1 < List.length (mem wB)) by exact Hd1lt.
  split; [lia|]. split; [lia|]. split; [lia|]. split; [reflexivity|].
  intros l x Hx. pose proof (lookup_lt_Some _ _ _ Hx).
  rewrite Hag by lia. simpl.
  apply lookup_app_l_Some, lookup_app_l_Some, lookup_app_l_Some. exact Hx.
Qed.

Lemma constructor_with_defaults_witness :
  let w := {| mem := [[("count", VNum 0); ("7", VNull)]];
              this := this empty_world; calls := [] |} in
  ∃ w' s1 d1,
    constructor (Some 0) w = Some (tt, w')
    ∧ this w' = {| _store := Some s1; _listeners := Some []; _default := Some d1 |}
    ∧ tree_of (mem w') (VRef s1)
      = Some (TObj [("7", TPrim PNull); ("count", TPrim (PNum 0))])
    ∧ tree_of (mem w') (VRef d1)
      = Some (TObj [("count", TPrim (PNum 0)); ("7", TPrim PNull)])
    ∧ s1 ≠ d1.
Proof.
  intros w.
  destruct (constructor_with_defaults w 0 [("count", VNum 0); ("7", VNull)]
              [("count", TPrim (PNum 0)); ("7", TPrim PNull)])
    as (w' & s1 & d1 & H1 & H2 & H3 & _ & H4 & H5 & _); try reflexivity.
  { refine (bool_decide_unpack _ _). vm_compute. exact I. }
  { refine (bool_decide_unpack _ _). vm_compute. exact I. }
  exists w', s1, d1. auto.
Defined.

(** X19: for records made of primitives and nested records, without a
    field named [__proto__], the argument of [restoreDefault(defaults)] is
    restored but not kept: the live state gets the fields of the argument,
    the configured snapshot is the same record and reads the same
    afterwards, and a following [restoreDefault()] brings back the fields of
    the configured default. *)
Theorem restoreDefault_argument_not_kept (w : world) (ls : list IStoreListener)
    (d dd : loc) (od odd : obj) (fs fsd : list (string * tree)) :
  _listeners (this w) = Some ls ->
  mem w !! d = Some od -> NoDup od.*1 -> "__proto__" ∉ od.*1 ->
  tree_of (mem w) (VRef d) = Some (TObj fs) ->
  _default (this w) = Some dd ->
  mem w !! dd = Some odd -> NoDup odd.*1 -> "__proto__" ∉ odd.*1 ->
  tree_of (mem w) (VRef dd) = Some (TObj fsd) ->
  ∃ w1 s1 w2 s2,
    (restoreDefault (Some d) ;;; getAll) w = Some (Some s1, w1)
    ∧ tree_of (mem w1) (VRef s1) = Some (TObj (enum_fields fs))
    ∧ _default (this w1) = Some dd
    ∧ tree_of (mem w1) (VRef dd) = Some (TObj fsd)
    ∧ (restoreDefault None ;;; getAll) w1 = Some (Some s2, w2)
    ∧ tree_of (mem w2) (VRef s2) = Some (TObj (enum_fields fsd)).
Proof.
  intros Hls Hd Hnd Hnp Ht Hdef Hdd Hndd Hnpd Htd.
  destruct (restoreDefault_run w (Some d) d od ls fs (or_introl eq_refl) Hls Hd Hnd Hnp Ht)
    as (hc1 & o1' & Hrun1 & Hag1 & Hl1 & _ & _ & Ht1).
  match type of Hrun1 with _ = Some (_, ?x) => set (w1 := x) in * end.
  pose proof (lookup_lt_Some _ _ _ Hdd) as Hddlt.
  pose proof (lookup_lt_Some _ _ _ Hl1) as Hl1lt.
  assert (Htd1 : tree_of (mem w1) (VRef dd) = Some (TObj fsd)).
  { eapply scan_tree_of; [eapply scan_agree; [exact Htd | reflexivity |]|].
    - intros l' Hl'. apply Hag1. exact Hl'.
    - simpl. lia. }
  destruct (restoreDefault_run w1 None dd odd ls fsd)
    as (hc2 & o2' & Hrun2 & _ & _ & _ & _ & Ht2).
  { right. split; [reflexivity | exact Hdef]. }
  { reflexivity. }
  { simpl. rewrite Hag1 by exact Hddlt. exact Hdd. }
  { exact Hndd. }
  { exact Hnpd. }
  { exact Htd1. }
  eexists w1, _, _, _. split.
  { erewrite bind_run; [|exact Hrun1]. reflexivity. }
  split; [exact Ht1|]. split; [exact Hdef|]. split; [exact Htd1|]. split.
  { erewrite bind_run; [|exact Hrun2]. reflexivity. }
  exact Ht2.
Qed.

Lemma restoreDefault_argument_not_kept_witness :
  let w := {| mem := [[]; [("a", VNum 1)]; [("a", VNum 9)]];
              this := {| _store := Some 0; _listeners := Some []; _default := Some 1 |};
              calls := [] |} in
  ∃ w1 s1 w2 s2,
    (restoreDefault (Some 2) ;;; getAll) w = Some (Some s1, w1)
    ∧ tree_of (mem w1) (VRef s1) = Some (TObj [("a", TPrim (PNum 9))])
    ∧ _default (this w1) = Some 1
    ∧ tree_of (mem w1) (VRef 1) = Some (TObj [("a", TPrim (PNum 1))])
    ∧ (restoreDefault None ;;; getAll) w1 = Some (Some s2, w2)
    ∧ tree_of (mem w2) (VRef s2) = Some (TObj [("a", TPrim (PNum 1))]).
Proof.
  intros w.
  apply (restoreDefault_argument_not_kept w [] 2 1 [("a", VNum 9)] [("a", VNum 1)]
           [("a", TPrim (PNum 9))] [("a", TPrim (PNum 1))]);
    try reflexivity; refine (bool_decide_unpack _ _); vm_compute; exact I.
Defined.

(** X20: a mass update stores every field of the record the callback
    returns, also fields that are not named in the key array, as a copy
    that reads as the returned value; the listeners invoked are those whose
    key is in the key array and no others. *)
Theorem set_mass_writes_all_returned (w : world) (l : loc) (o : obj)
    (ls : list IStoreListener) (ks : list value) (f : jsfun) (r : value)
    (h2 : heap) (ext : obj) (t : tree) :
  _store (this w) = Some l ->
  mem w !! l = Some o ->
  _listeners (this w) = Some ls ->
  f (mem w ++ [pick o ks]) (VRef (List.length (mem w))) = (r, h2) ->
  spread_of h2 r = Some ext ->
  NoDup ext.*1 ->
  tree_of (h2 ++ [spread_over o ext]) (VRef (List.length h2)) = Some t ->
  ∃ w' s' o',
    set (AArray ks) (SFun f) w = Some (This, w')
    ∧ getAll w' = Some (Some s', w')
    ∧ mem w' !! s' = Some o'
    ∧ (∀ k0 v0, (k0, v0) ∈ ext ->
         ∃ t0, tree_of (mem w') (prop_get o' k0) = Some t0
               ∧ tree_of (h2 ++ [spread_over o ext]) v0 = Some t0)
    ∧ (∀ c, c ∈ drop (List.length (calls w)) (calls w') ->
         ∃ i, i ∈ ls ∧ key i ∈ ks ∧ c = (cb i, proto_get o' (prop_name (key i)))).
Proof.
  intros Hs Hl Hls Hf Hext Hnd Ht.
  assert (Hlen3 : List.length (h2 ++ [spread_over o ext]) = S (List.length h2))
    by (rewrite length_app; simpl; lia).
  unfold tree_of in Ht. rewrite Hlen3 in Ht.
  destruct (set_mass_run w l o ls ks f r h2 ext _ t Hs Hl Hls Hf Hext Ht (le_n _))
    as (s' & k & o' & Hrun & Ho' & Hsc & Hfr & Hcl).
  destruct (scan_ref_obj _ _ _ _ Ht) as (om & fs & Hom & Hfs & ->).
  destruct (scan_ref_obj _ _ _ _ Hsc) as (o'' & fs' & Ho'' & Hfs' & Efs).
  rewrite Ho' in Ho''. inversion Ho''; subst o''; clear Ho''.
  inversion Efs; subst fs'; clear Efs. simpl in Hfs, Hfs'.
  rewrite list_lookup_middle in Hom by reflexivity.
  inversion Hom; subst om; clear Hom.
  eexists _, s', o'. rewrite set_array_dispatch.
  split; [eapply returns_this; exact Hrun|]. cbn [mem this calls].
  split; [reflexivity|]. split; [exact Ho'|]. split.
  - intros k0 v0 Hin. exists (tree_get fs k0). split.
    + eapply scan_tree_of; [apply scan_prop_get; exact Hfs'|].
      rewrite length_app, Hlen3. lia.
    + rewrite <- (prop_get_spread_over_in ext o k0 v0 Hnd Hin).
      eapply scan_tree_of; [apply scan_prop_get; exact Hfs|]. lia.
  - intros c Hc. rewrite drop_app_length in Hc. unfold notified in Hc.
    apply list_elem_of_fmap in Hc. destruct Hc as (i & -> & Hi).
    apply list_elem_of_filter in Hi. destruct Hi as [Hk Hi].
    exists i. auto.
Qed.

Lemma set_mass_writes_all_returned_witness :
  let w := {| mem := [[("a", VNum 1)]];
              this := {| _store := Some 0;
                         _listeners := Some [{| key := VStr "a"; cb := 3 |};
                                             {| key := VStr "z"; cb := 4 |}];
                         _default := None |};
              calls := [] |} in
  let f : jsfun := fun h v => (VRef (List.length h), h ++ [[("z", VNum 7)]]) in
  ∃ w' s' o',
    set (AArray [VStr "a"]) (SFun f) w = Some (This, w')
    ∧ getAll w' = Some (Some s', w')
    ∧ mem w' !! s' = Some o'
    ∧ (∃ t0, tree_of (mem w') (prop_get o' "z") = Some t0
             ∧ Some (TPrim (PNum 7)) = Some t0)
    ∧ (∀ c, c ∈ drop 0 (calls w') ->
         ∃ i, i ∈ [{| key := VStr "a"; cb := 3 |}; {| key := VStr "z"; cb := 4 |}]
              ∧ key i ∈ [VStr "a"] ∧ c = (cb i, proto_get o' (prop_name (key i)))).
Proof.
  intros w f.
  destruct (set_mass_writes_all_returned w 0 [("a", VNum 1)]
              [{| key := VStr "a"; cb := 3 |}; {| key := VStr "z"; cb := 4 |}]
              [VStr "a"] f (VRef 2)
              [[("a", VNum 1)]; [("a", VNum 1)]; [("z", VNum 7)]] [("z", VNum 7)]
              (TObj [("a", TPrim (PNum 1)); ("z", TPrim (PNum 7))]))
    as (w' & s' & o' & H1 & H2 & H3 & H4 & H5); try reflexivity.
  { refine (bool_decide_unpack _ _). vm_compute. exact I. }
  exists w', s', o'. split; [exact H1|]. split; [exact H2|]. split; [exact H3|].
  split; [|exact H5]. apply (H4 "z" (VNum 7)). left.
Defined.
